(** * HelenOS: timeout queue, IRQ top-half programs and Ethernet addresses

    A shallow embedding of

    - [uspace/lib/inet/src/eth_addr.c]       (module [EthAddr]),
    - [kernel/generic/src/time/timeout.c]    (module [Timeout]),
    - [kernel/generic/include/ddi/irq.h] and the NE2000 top-half program
      of [uspace/srv/hw/netif/ne2000/ne2000.c] (module [Irq]),

    together with the properties the design document states about them. *)

From Stdlib Require Import ZArith Lia String Sorted DecimalString.
From stdpp Require Import base option list sorting gmap.
From coqutil Require Import Byte.

Local Open Scope Z_scope.

(** ** Fixed-width unsigned arithmetic *)

(** [wrap w z] is the value a [w]-bit unsigned C variable holds after [z]
    is stored into it. *)
Definition wrap (w : Z) (z : Z) : Z := z mod 2 ^ w.

(** ** Ethernet addresses: [eth_addr.c] *)

Module EthAddr.

(** [ETH_ADDR_SIZE] comes from [inet/eth_addr.h]; the initializer of
    [eth_addr_broadcast] in [eth_addr.c] takes its six bytes and the
    shift [40 - 8 * i] of both loops reaches [0] at [i = 5]. *)
Definition ETH_ADDR_SIZE : nat := 6.

(** [eth_addr_t]: the address is kept in the single [uint64_t] field [a]. *)
Record eth_addr_t := { a : Z }.

(** The shift amount [40 - 8 * i] of both loops. *)
Definition shift_of (i : nat) : Z := 40 - 8 * Z.of_nat i.

(** [for (i = ...; i < ETH_ADDR_SIZE; i++) bp[i] = (a >> (40 - 8 * i)) & 0xff;]
    with [n] iterations left.  The store to [bp[i]] converts to [uint8_t]. *)
Fixpoint encode_loop (a : Z) (i n : nat) (bp : list byte) : list byte :=
  match n with
  | O => bp
  | S n' =>
      encode_loop a (S i) n'
        (<[i := byte.of_Z (Z.land (Z.shiftr a (shift_of i)) 0xff)]> bp)
  end.

(** [eth_addr_encode]: [buf] is the caller's buffer; the result is the
    buffer after the call.  A buffer shorter than [ETH_ADDR_SIZE] would be
    written past its end, which has no defined result: [None]. *)
Definition eth_addr_encode (addr : eth_addr_t) (buf : list byte)
  : option (list byte) :=
  if decide (ETH_ADDR_SIZE <= length buf)%nat
  then Some (encode_loop (a addr) 0 ETH_ADDR_SIZE buf)
  else None.

(** [for (i = ...; i < ETH_ADDR_SIZE; i++) a |= (uint64_t)bp[i] << (40 - 8 * i);]
    with [n] iterations left and accumulator [acc]; both the shift and
    the or are taken in [uint64_t]. *)
Fixpoint decode_loop (bp : list byte) (i n : nat) (acc : Z) : option Z :=
  match n with
  | O => Some acc
  | S n' =>
      match bp !! i with
      | Some b =>
          decode_loop bp (S i) n'
            (Z.lor acc (wrap 64 (Z.shiftl (byte.unsigned b) (shift_of i))))
      | None => None
      end
  end.

(** [eth_addr_decode]: [None] when the buffer is read past its end. *)
Definition eth_addr_decode (buf : list byte) : option eth_addr_t :=
  a' ← decode_loop buf 0 ETH_ADDR_SIZE 0;
  Some {| a := a' |}.

(** The six bytes of a buffer put together as [eth_addr_decode] does. *)
Definition pack (b0 b1 b2 b3 b4 b5 : byte) : Z :=
  Z.lor (Z.lor (Z.lor (Z.lor (Z.lor (Z.lor 0
    (Z.shiftl (byte.unsigned b0) 40)) (Z.shiftl (byte.unsigned b1) 32))
    (Z.shiftl (byte.unsigned b2) 24)) (Z.shiftl (byte.unsigned b3) 16))
    (Z.shiftl (byte.unsigned b4) 8)) (Z.shiftl (byte.unsigned b5) 0).

(** [eth_addr_broadcast]. *)
Definition eth_addr_broadcast : eth_addr_t := {| a := 0xffffffffffff |}.

(** [eth_addr_compare]: [-1], [0] or [1] as the first address is below,
    equal to or above the second ([0] is returned for equal addresses). *)
Definition eth_addr_compare (x y : eth_addr_t) : Z :=
  if a x <? a y then -1
  else if a x =? a y then 0
  else 1.

(** Byte strings compared position by position, first difference wins,
    the way [memcmp] orders buffers of one length. *)
Fixpoint bytes_compare (x y : list byte) : Z :=
  match x, y with
  | b :: x', c :: y' =>
      if byte.unsigned b <? byte.unsigned c then -1
      else if byte.unsigned c <? byte.unsigned b then 1
      else bytes_compare x' y'
  | _, _ => 0
  end.

(** *** [eth_addr_format] *)

(** The digits [printf] uses for the conversion [x]. *)
Definition hex_chars : list byte :=
  [Byte.x30; Byte.x31; Byte.x32; Byte.x33; Byte.x34; Byte.x35; Byte.x36; Byte.x37;
   Byte.x38; Byte.x39; Byte.x61; Byte.x62; Byte.x63; Byte.x64; Byte.x65; Byte.x66].

Definition hex_digit (d : Z) : byte := nth (Z.to_nat d) hex_chars Byte.x30.

(** The digits of [v] in base sixteen, most significant first, at least
    one; [fuel] bounds their number (eight for an [unsigned]). *)
Fixpoint hex_digits (fuel : nat) (v : Z) : list byte :=
  match fuel with
  | O => []
  | S fuel' =>
      if v <? 16 then [hex_digit v]
      else hex_digits fuel' (v / 16) ++ [hex_digit (v mod 16)]
  end.

(** The conversion [%02x] of an [unsigned]: the hexadecimal digits, with
    zeros in front up to two characters. *)
Definition fmt_02x (v : Z) : list byte :=
  let ds := hex_digits 8 (wrap 32 v) in
  replicate (2 - length ds) Byte.x30 ++ ds.

(** [bytes] stored over the beginning of [buf]; [None] past the end of
    the buffer. *)
Fixpoint overwrite (bytes : list byte) (buf : list byte) : option (list byte) :=
  match bytes with
  | [] => Some buf
  | c :: bytes' =>
      match buf with
      | [] => None
      | _ :: buf' => cons c <$> overwrite bytes' buf'
      end
  end.

(** [bytes] stored at [buf + off]. *)
Fixpoint store_at (off : nat) (bytes : list byte) (buf : list byte)
  : option (list byte) :=
  match off with
  | O => overwrite bytes buf
  | S off' =>
      match buf with
      | [] => None
      | c :: buf' => cons c <$> store_at off' bytes buf'
      end
  end.

(** [snprintf(buf + off, size, ...)] where the conversions give [text]: at
    most [size - 1] characters of it and a terminating zero are stored,
    nothing when [size] is zero. *)
Definition snprintf (off : nat) (size : nat) (text : list byte) (buf : list byte)
  : option (list byte) :=
  match size with
  | O => Some buf
  | S n => store_at off (take n text ++ [Byte.x00]) buf
  end.

(** The loop [for (i = ...; i < ETH_ADDR_SIZE; i++)] of [eth_addr_format]
    with [n] iterations left. *)
Fixpoint format_loop (a : Z) (i n : nat) (str : list byte) : option (list byte) :=
  match n with
  | O => Some str
  | S n' =>
      str' ← snprintf (2 + 3 * (i - 1)) 4
               (Byte.x3a :: fmt_02x (Z.land (Z.shiftr a (40 - Z.of_nat i * 8)) 0xff))
               str;
      format_loop a (S i) n' str'
  end.

(** [eth_addr_format]: [str] is the character array of the caller's
    [eth_addr_str_t]; the result is the array after the call. *)
Definition eth_addr_format (addr : eth_addr_t) (str : list byte)
  : option (list byte) :=
  str' ← snprintf 0 3 (fmt_02x (Z.land (Z.shiftr (a addr) 40) 0xff)) str;
  format_loop (a addr) 1 (ETH_ADDR_SIZE - 1) str'.

(** Two hexadecimal digits of a byte, and the text
    [xx:xx:xx:xx:xx:xx] of six bytes. *)
Definition hex_pair (b : byte) : list byte :=
  [hex_digit (byte.unsigned b / 16); hex_digit (byte.unsigned b mod 16)].

Fixpoint colon_hex (bs : list byte) : list byte :=
  match bs with
  | [] => []
  | [b] => hex_pair b
  | b :: rest => hex_pair b ++ Byte.x3a :: colon_hex rest
  end.

End EthAddr.

(** ** Timeouts: [timeout.c] *)

Module Timeout.

(** *** Outcome of a kernel call

    A call either returns, halts the kernel in [panic], or dereferences
    a pointer that names no object (which C leaves undefined). *)
Inductive result (A : Type) : Type :=
| Ok (x : A)
| Panic (msg : string)
| BadPointer.
Arguments Ok {A} x.
Arguments Panic {A} msg.
Arguments BadPointer {A}.

#[global] Instance result_bind : MBind result := λ A B f m,
  match m with
  | Ok x => f x
  | Panic msg => Panic msg
  | BadPointer => BadPointer
  end.

(** Dereference of a pointer into a store. *)
Definition deref {A} (store : gmap nat A) (p : nat) : result A :=
  match store !! p with
  | Some x => Ok x
  | None => BadPointer
  end.

(** *** Data

    A [timeout_t *] or [cpu_t *] is the key of the object in the store;
    [NULL] is [None].  [timeout_t] and [cpu_t] are declared in
    [time/timeout.h] and [cpu.h]; the fields below are the ones
    [timeout.c] touches.  The locks are left out: calls are modelled one
    at a time, so every [irq_spinlock_lock] and [irq_spinlock_trylock]
    succeeds at once. *)
Record timeout_t := {
  cpu : option nat;        (* cpu_t *cpu: on which processor is this registered *)
  deadline : Z;            (* uint64_t deadline: absolute tick *)
  handler : option nat;    (* timeout_handler_t handler *)
  arg : option nat         (* void *arg *)
}.

(** The intrusive list [timeout_active_list] (head in [cpu_t], a [link]
    in every [timeout_t]) is kept as the sequence of the timeouts linked
    into it, first to last. *)
Record cpu_t := {
  current_clock_tick : Z;
  timeout_active_list : list nat
}.

Record kernel := {
  cpus : gmap nat cpu_t;
  timeouts : gmap nat timeout_t
}.

Definition set_timeout (p : nat) (t : timeout_t) (k : kernel) : kernel :=
  {| cpus := cpus k; timeouts := <[p := t]> (timeouts k) |}.

Definition set_cpu (p : nat) (c : cpu_t) (k : kernel) : kernel :=
  {| cpus := <[p := c]> (cpus k); timeouts := timeouts k |}.

(** *** List primitives *)

(** Modelled from the spec: [list_prepend] of [adt/list.h], a header
    outside the files covered here; the node becomes the first entry of the
    list. *)
Definition list_prepend (p : nat) (l : list nat) : list nat := p :: l.

(** Modelled from the spec: [list_insert_after] of [adt/list.h]; the node
    is linked right behind the node [prev], given by its position in the
    list. *)
Definition list_insert_after (p : nat) (prev : nat) (l : list nat) : list nat :=
  take (S prev) l ++ p :: drop (S prev) l.

(** Modelled from the spec: [list_next] of [adt/list.h]; the entry behind
    the node of [p], [None] ([NULL]) when that node is the last one or is
    not linked into [l]. *)
Fixpoint list_next (p : nat) (l : list nat) : option nat :=
  match l with
  | [] => None
  | q :: rest => if decide (q = p) then head rest else list_next p rest
  end.

(** Modelled from the spec: the effect of [list_remove] of [adt/list.h]
    on one list; the node of [p] is no longer in it. *)
Definition unlink (p : nat) (c : cpu_t) : cpu_t :=
  {| current_clock_tick := current_clock_tick c;
     timeout_active_list := filter (λ q, q ≠ p) (timeout_active_list c) |}.

(** Modelled from the spec: [list_remove] of [adt/list.h]; the call gets
    the node only, which is unlinked from the list it is in, whichever
    processor that list belongs to. *)
Definition list_remove (p : nat) (k : kernel) : kernel :=
  {| cpus := unlink p <$> cpus k; timeouts := timeouts k |}.

(** *** [timeout_init], [timeout_reinitialize], [timeout_initialize] *)

(** [list_initialize(&CPU->timeout_active_list)] leaves the head an empty
    list.  The call writes the head only: the nodes that were linked keep
    their own links until [link_initialize] resets them, which a sequence
    of the nodes reachable from the head does not record.  The definition
    is exact on an empty list, and on any list whose nodes go through
    [timeout_reinitialize] before they are used again, which is the order
    at boot. *)
Definition timeout_init (CPU : nat) (k : kernel) : result kernel :=
  c ← deref (cpus k) CPU;
  Ok (set_cpu CPU {| current_clock_tick := current_clock_tick c;
                     timeout_active_list := [] |} k).

(** All members except the lock; [link_initialize] resets the node's own
    link and leaves every list as it is. *)
Definition reinitialized : timeout_t :=
  {| cpu := None; deadline := 0; handler := None; arg := None |}.

Definition timeout_reinitialize (timeout : nat) (k : kernel) : kernel :=
  set_timeout timeout reinitialized k.

Definition timeout_initialize (timeout : nat) (k : kernel) : kernel :=
  timeout_reinitialize timeout k.

(** *** [timeout_register] *)

(** The insertion loop
    [for (cur = list_first(..); cur != NULL; cur = list_next(cur, ..))].
    [l] is the list from [cur] on, [cur] the position of its first node,
    [prev] the position of the last node the loop went past ([None] for
    [NULL]).  The loop leaves at the first [target] with
    [timeout->deadline < target->deadline]. *)
Fixpoint insertion_scan (ts : gmap nat timeout_t) (d : Z)
    (l : list nat) (cur : nat) (prev : option nat) : result (option nat) :=
  match l with
  | [] => Ok prev
  | p :: rest =>
      target ← deref ts p;
      if d <? deadline target then Ok prev
      else insertion_scan ts d rest (S cur) (Some cur)
  end.

Section WithClock.

(** [us2ticks] (microseconds to clock ticks) is configuration of the
    kernel that [timeout.c] consumes. *)
Variable us2ticks : Z -> Z.

(** [CPU] is the processor the call runs on. *)
Definition timeout_register (CPU : nat) (timeout : nat) (time : Z)
    (handler' arg' : option nat) (k : kernel) : result kernel :=
  c ← deref (cpus k) CPU;
  t ← deref (timeouts k) timeout;
  match cpu t with
  | Some _ => Panic "Unexpected: timeout->cpu != 0."
  | None =>
      let t' := {| cpu := Some CPU;
                   deadline := wrap 64 (current_clock_tick c + us2ticks time);
                   handler := handler';
                   arg := arg' |} in
      let k1 := set_timeout timeout t' k in
      prev ← insertion_scan (timeouts k1) (deadline t')
                (timeout_active_list c) 0 None;
      let l' := match prev with
                | None => list_prepend timeout (timeout_active_list c)
                | Some i => list_insert_after timeout i (timeout_active_list c)
                end in
      Ok (set_cpu CPU {| current_clock_tick := current_clock_tick c;
                         timeout_active_list := l' |} k1)
  end.

End WithClock.

(** *** [timeout_unregister] *)

Definition timeout_unregister (timeout : nat) (k : kernel)
  : result (bool * kernel) :=
  t ← deref (timeouts k) timeout;
  match cpu t with
  | None => Ok (false, k)
  | Some owner =>
      (* timeout->cpu->timeoutlock *)
      c ← deref (cpus k) owner;
      (* the lock of the successor is taken and released *)
      _ ← match list_next timeout (timeout_active_list c) with
           | Some tmp => deref (timeouts k) tmp
           | None => Ok t
           end;
      Ok (true, timeout_reinitialize timeout (list_remove timeout k))
  end.

(** The list after the insertion, in terms of the number of nodes the
    loop went past. *)
Definition inserted (timeout : nat) (n : nat) (l : list nat) : list nat :=
  take n l ++ timeout :: drop n l.

(** The timeout as [timeout_register] leaves it. *)
Definition registered (us2ticks : Z → Z) (CPU : nat) (c : cpu_t) (time : Z)
    (h a : option nat) : timeout_t :=
  {| cpu := Some CPU;
     deadline := wrap 64 (current_clock_tick c + us2ticks time);
     handler := h; arg := a |}.

(** *** Call sequences *)

Inductive call :=
| Register (CPU timeout : nat) (time : Z) (handler' arg' : option nat)
| Unregister (timeout : nat).

Definition do_call (us2ticks : Z -> Z) (c : call) (k : kernel) : result kernel :=
  match c with
  | Register CPU timeout time h a => timeout_register us2ticks CPU timeout time h a k
  | Unregister timeout => r ← timeout_unregister timeout k; Ok (snd r)
  end.

Fixpoint do_calls (us2ticks : Z -> Z) (cs : list call) (k : kernel) : result kernel :=
  match cs with
  | [] => Ok k
  | c :: rest => k' ← do_call us2ticks c k; do_calls us2ticks rest k'
  end.

(** *** State predicates *)

(** The deadline stored in the timeout [p] points to. *)
Definition deadline_of (k : kernel) (p : nat) : Z :=
  from_option deadline 0 (timeouts k !! p).

(** Deadlines along a list, first to last. *)
Definition deadlines (k : kernel) (l : list nat) : list Z :=
  deadline_of k <$> l.

(** The state right after boot: every processor went through
    [timeout_init], every timeout through [timeout_initialize] and none
    was registered since. *)
Definition booted (k : kernel) : Prop :=
  map_Forall (λ _ c, timeout_active_list c = []) (cpus k) ∧
  map_Forall (λ _ t, cpu t = None) (timeouts k).

(** The data-model invariant, in a form that can be checked on a given
    state: a timeout linked into the list of a processor exists and names
    that processor as its owner, the owner of a timeout exists, and every
    list is in ascending order of deadline. *)
Definition owned_by (k : kernel) (c p : nat) : Prop :=
  cpu <$> timeouts k !! p = Some (Some c).

Definition owner_known (k : kernel) (t : timeout_t) : Prop :=
  match cpu t with
  | Some c => is_Some (cpus k !! c)
  | None => True
  end.

#[global] Instance owner_known_dec k t : Decision (owner_known k t).
Proof. unfold owner_known. destruct (cpu t); apply _. Defined.

Definition consistent (k : kernel) : Prop :=
  map_Forall (λ c cs, Forall (owned_by k c) (timeout_active_list cs)) (cpus k) ∧
  map_Forall (λ _ t, owner_known k t) (timeouts k) ∧
  map_Forall (λ _ cs, StronglySorted Z.le (deadlines k (timeout_active_list cs)))
    (cpus k).

#[global] Instance consistent_dec k : Decision (consistent k).
Proof. unfold consistent, owned_by. apply _. Defined.

(** *** A small machine for worked runs

    Two processors after [timeout_init], five timeouts after
    [timeout_initialize], and a clock of one tick per ten microseconds. *)
Definition demo_boot : kernel :=
  {| cpus := {[ 0%nat := {| current_clock_tick := 100; timeout_active_list := [] |};
                1%nat := {| current_clock_tick := 7; timeout_active_list := [] |} ]};
     timeouts := list_to_map ((λ p, (p, reinitialized)) <$> seq 1 5) |}.

Definition demo_us2ticks (us : Z) : Z := us / 10.

Definition demo_calls : list call :=
  [Register 0 1 50 None None; Register 0 2 30 None None;
   Register 0 3 50 None None; Register 0 4 10 None None;
   Register 0 5 40 None None; Unregister 2].

(** The machine after a sequence of calls (the boot state again when the
    sequence does not complete). *)
Definition demo_after (calls : list call) : kernel :=
  match do_calls demo_us2ticks calls demo_boot with
  | Ok k => k
  | _ => demo_boot
  end.

(** The same machine with timeouts 2 and 1 registered on processor 0,
    due at ticks 103 and 105. *)
Definition demo_cpu0 : cpu_t :=
  {| current_clock_tick := 100; timeout_active_list := [2; 1]%nat |}.

Definition demo_timeout2 : timeout_t :=
  {| cpu := Some 0%nat; deadline := 103; handler := Some 8%nat; arg := Some 1%nat |}.

Definition demo_busy : kernel :=
  {| cpus := {[ 0%nat := demo_cpu0;
                1%nat := {| current_clock_tick := 7; timeout_active_list := [] |} ]};
     timeouts :=
       <[ 1%nat := {| cpu := Some 0%nat; deadline := 105; handler := Some 7%nat; arg := None |} ]>
       (<[ 2%nat := demo_timeout2 ]>
        (list_to_map ((λ p, (p, reinitialized)) <$> seq 1 5))) |}.


(** *** Linkage

    The other half of the data-model invariant: no timeout is linked
    twice, and a timeout that names an owner is linked into the list of
    that owner. *)
Definition linked_in (k : kernel) (c p : nat) : Prop :=
  match cpus k !! c with
  | Some cs => p ∈ timeout_active_list cs
  | None => False
  end.

#[global] Instance linked_in_dec k c p : Decision (linked_in k c p).
Proof. unfold linked_in. destruct (cpus k !! c); apply _. Defined.

Definition owner_links (k : kernel) (p : nat) (t : timeout_t) : Prop :=
  match cpu t with
  | Some c => linked_in k c p
  | None => True
  end.

#[global] Instance owner_links_dec k p t : Decision (owner_links k p t).
Proof. unfold owner_links. destruct (cpu t); apply _. Defined.

Definition well_linked (k : kernel) : Prop :=
  consistent k ∧
  map_Forall (λ _ cs, NoDup (timeout_active_list cs)) (cpus k) ∧
  map_Forall (owner_links k) (timeouts k).

#[global] Instance well_linked_dec k : Decision (well_linked k).
Proof. unfold well_linked. apply _. Defined.

(** *** Boot

    [timeout_init] on each of the processors [cs], then
    [timeout_initialize] on each of the timeouts [ps]. *)
Fixpoint init_processors (cs : list nat) (k : kernel) : result kernel :=
  match cs with
  | [] => Ok k
  | c :: rest => k' ← timeout_init c k; init_processors rest k'
  end.

Definition init_timeouts (ps : list nat) (k : kernel) : kernel :=
  foldr timeout_initialize k ps.

End Timeout.


(** ** Interrupt top-half programs: [ddi/irq.h] *)

Module Irq.

(** [irq_cmd_type].  [CMD_LAST] only closes the enumeration and is not a
    command, so it has no constructor. *)
Inductive irq_cmd_type :=
| CMD_PIO_READ_8 | CMD_PIO_READ_16 | CMD_PIO_READ_32
| CMD_PIO_WRITE_8 | CMD_PIO_WRITE_16 | CMD_PIO_WRITE_32
| CMD_PIO_WRITE_A_8 | CMD_PIO_WRITE_A_16 | CMD_PIO_WRITE_A_32
| CMD_MEM_READ_8 | CMD_MEM_READ_16 | CMD_MEM_READ_32
| CMD_MEM_WRITE_8 | CMD_MEM_WRITE_16 | CMD_MEM_WRITE_32
| CMD_MEM_WRITE_A_8 | CMD_MEM_WRITE_A_16 | CMD_MEM_WRITE_A_32
| CMD_BTEST
| CMD_PREDICATE
| CMD_ACCEPT
| CMD_DECLINE.

(** The enumerators count up from [CMD_PIO_READ_8 = 1]. *)
Definition cmd_number (c : irq_cmd_type) : Z :=
  match c with
  | CMD_PIO_READ_8 => 1 | CMD_PIO_READ_16 => 2 | CMD_PIO_READ_32 => 3
  | CMD_PIO_WRITE_8 => 4 | CMD_PIO_WRITE_16 => 5 | CMD_PIO_WRITE_32 => 6
  | CMD_PIO_WRITE_A_8 => 7 | CMD_PIO_WRITE_A_16 => 8 | CMD_PIO_WRITE_A_32 => 9
  | CMD_MEM_READ_8 => 10 | CMD_MEM_READ_16 => 11 | CMD_MEM_READ_32 => 12
  | CMD_MEM_WRITE_8 => 13 | CMD_MEM_WRITE_16 => 14 | CMD_MEM_WRITE_32 => 15
  | CMD_MEM_WRITE_A_8 => 16 | CMD_MEM_WRITE_A_16 => 17 | CMD_MEM_WRITE_A_32 => 18
  | CMD_BTEST => 19
  | CMD_PREDICATE => 20
  | CMD_ACCEPT => 21
  | CMD_DECLINE => 22
  end.

Definition CMD_LAST : Z := 23.

(** [irq_cmd_t]. *)
Record irq_cmd_t := {
  cmd : irq_cmd_type;
  addr : Z;          (* void *addr *)
  value : Z;         (* uint32_t value *)
  srcarg : nat;      (* uintptr_t srcarg *)
  dstarg : nat       (* uintptr_t dstarg *)
}.

(** [irq_code_t]: [cmdcount] commands at [cmds]. *)
Record irq_code_t := { cmds : list irq_cmd_t }.

Definition cmdcount (code : irq_code_t) : nat := length (cmds code).

(** [irq_ownership_t]. *)
Inductive irq_ownership_t := IRQ_DECLINE | IRQ_ACCEPT.

(** *** The device side *)

Inductive io_space := PIO | MEM.

(** Modelled from the spec: the accesses a top half makes to the device,
    reading and writing [bytes] bytes of I/O or memory space at an address.
    A read returns the value and the state it leaves behind. *)
Class Hardware (H : Type) := {
  hw_read : io_space → nat → Z → H → Z * H;
  hw_write : io_space → nat → Z → Z → H → H
}.

(** Plain registers, one bank per space (I/O ports first, memory second):
    a read returns what was last written, and [0] before any write. *)
Definition bank_select (sp : io_space) (h : gmap Z Z * gmap Z Z) : gmap Z Z :=
  match sp with PIO => h.1 | MEM => h.2 end.

Definition bank_update (sp : io_space) (f : gmap Z Z → gmap Z Z)
    (h : gmap Z Z * gmap Z Z) : gmap Z Z * gmap Z Z :=
  match sp with PIO => (f h.1, h.2) | MEM => (h.1, f h.2) end.

#[global] Instance register_bank : Hardware (gmap Z Z * gmap Z Z) := {|
  hw_read sp _ a h := (default 0 (bank_select sp h !! a), h);
  hw_write sp _ a v h := bank_update sp (insert a v) h
|}.

(** *** The interpreter *)

(** What a command does, read off the comments of [irq_cmd_type]. *)
Inductive operation :=
| Read (sp : io_space) (bytes : nat)
| Write (sp : io_space) (bytes : nat)
| Write_A (sp : io_space) (bytes : nat)
| Btest
| Predicate
| Accept
| Decline.

Definition operation_of (c : irq_cmd_type) : operation :=
  match c with
  | CMD_PIO_READ_8 => Read PIO 1 | CMD_PIO_READ_16 => Read PIO 2
  | CMD_PIO_READ_32 => Read PIO 4
  | CMD_PIO_WRITE_8 => Write PIO 1 | CMD_PIO_WRITE_16 => Write PIO 2
  | CMD_PIO_WRITE_32 => Write PIO 4
  | CMD_PIO_WRITE_A_8 => Write_A PIO 1 | CMD_PIO_WRITE_A_16 => Write_A PIO 2
  | CMD_PIO_WRITE_A_32 => Write_A PIO 4
  | CMD_MEM_READ_8 => Read MEM 1 | CMD_MEM_READ_16 => Read MEM 2
  | CMD_MEM_READ_32 => Read MEM 4
  | CMD_MEM_WRITE_8 => Write MEM 1 | CMD_MEM_WRITE_16 => Write MEM 2
  | CMD_MEM_WRITE_32 => Write MEM 4
  | CMD_MEM_WRITE_A_8 => Write_A MEM 1 | CMD_MEM_WRITE_A_16 => Write_A MEM 2
  | CMD_MEM_WRITE_A_32 => Write_A MEM 4
  | CMD_BTEST => Btest
  | CMD_PREDICATE => Predicate
  | CMD_ACCEPT => Accept
  | CMD_DECLINE => Decline
  end.

Section Interpreter.

Context {H : Type} `{Hardware H}.

(** The interpreter at work: the index of the next command, the scratch
    registers [uint32_t scratch[IPC_CALL_LEN]] of [ipc_notif_cfg_t], and
    the device. *)
Record machine := {
  pc : nat;
  scratch : list Z;
  hw : H
}.

(** [scratch[i]]; register indices are validated at registration, an
    index past the array reads as [0] here. *)
Definition reg (s : list Z) (i : nat) : Z := default 0 (s !! i).

Definition width (bytes : nat) : Z := 8 * Z.of_nat bytes.

Inductive step_result :=
| Next (m : machine)
| Done (o : irq_ownership_t) (m : machine).

(** Modelled from the spec: the interpreter, which lives in
    [kernel/generic/src/ipc/irq.c], outside the files covered here.  One
    command, after the list of opcode semantics of the design document: a
    read loads from [addr] into [scratch[dst]], a write stores [value] (or
    [scratch[src]] for the write-from-register variant) to [addr], the bit
    test sets [scratch[dst] = scratch[src] & value], the predicate skips
    the next [value] commands when [scratch[src]] is zero and goes on with
    the next command otherwise, accept and decline end the run.  For the
    predicate this is also what [irq.h] says of [CMD_PREDICATE] (the
    following N commands are predicated by the boolean value of the source
    argument) and what [ne2k_cmds] relies on. *)
Definition exec_cmd (c : irq_cmd_t) (m : machine) : step_result :=
  match operation_of (cmd c) with
  | Read sp n =>
      let '(v, h) := hw_read sp n (addr c) (hw m) in
      Next {| pc := S (pc m);
              scratch := <[dstarg c := wrap (width n) v]> (scratch m);
              hw := h |}
  | Write sp n =>
      Next {| pc := S (pc m);
              scratch := scratch m;
              hw := hw_write sp n (addr c) (wrap (width n) (value c)) (hw m) |}
  | Write_A sp n =>
      Next {| pc := S (pc m);
              scratch := scratch m;
              hw := hw_write sp n (addr c)
                      (wrap (width n) (reg (scratch m) (srcarg c))) (hw m) |}
  | Btest =>
      Next {| pc := S (pc m);
              scratch := <[dstarg c := Z.land (reg (scratch m) (srcarg c)) (value c)]>
                           (scratch m);
              hw := hw m |}
  | Predicate =>
      if reg (scratch m) (srcarg c) =? 0
      then Next {| pc := S (pc m) + Z.to_nat (value c);
                   scratch := scratch m; hw := hw m |}
      else Next {| pc := S (pc m); scratch := scratch m; hw := hw m |}
  | Accept => Done IRQ_ACCEPT m
  | Decline => Done IRQ_DECLINE m
  end.

(** What a run leaves: the outcome fixed by a terminal command ([None]
    when the run went past the last command without one), the machine,
    and the indices of the commands that were executed, in order. *)
Record run_result := {
  outcome : option irq_ownership_t;
  final : machine;
  executed : list nat
}.

Definition after (i : nat) (r : run_result) : run_result :=
  {| outcome := outcome r; final := final r; executed := i :: executed r |}.

(** Modelled from the spec: the interpreter loop of
    [kernel/generic/src/ipc/irq.c]: commands are
    executed one after the other from [pc] on until a terminal command or
    the end of the program.  [fuel] bounds the number of commands
    executed; [None] means it ran out. *)
Fixpoint run (fuel : nat) (code : irq_code_t) (m : machine) : option run_result :=
  match cmds code !! pc m with
  | None => Some {| outcome := None; final := m; executed := [] |}
  | Some c =>
      match fuel with
      | O => None
      | S fuel' =>
          match exec_cmd c m with
          | Done o m' =>
              Some {| outcome := Some o; final := m'; executed := [pc m] |}
          | Next m' => after (pc m) <$> run fuel' code m'
          end
      end
  end.

(** Modelled from the spec: a whole run over the scratch registers of the
    descriptor, from the first command, with one unit of fuel per command
    of the program. *)
Definition interpret (code : irq_code_t) (s : list Z) (h : H) : option run_result :=
  run (cmdcount code) code {| pc := 0; scratch := s; hw := h |}.

End Interpreter.

Arguments machine H : clear implicits.
Arguments step_result H : clear implicits.
Arguments run_result H : clear implicits.

(** *** Programs *)

(** [ne2k_cmds] of [ne2000.c] as [netif_start_message] completes it:
    [isr], [imr] and [tsr] are [port + DP_ISR], [port + DP_IMR] and
    [port + DP_TSR], [mask] is
    [ISR_PRX | ISR_PTX | ISR_RXE | ISR_TXE | ISR_OVW | ISR_CNT | ISR_RDC]
    (the constants are in [dp8390.h]).  Members the initializer leaves out
    are zero. *)
Definition ne2k_cmds (isr imr tsr mask : Z) : list irq_cmd_t := [
  {| cmd := CMD_PIO_READ_8; addr := isr; value := 0; srcarg := 0; dstarg := 2 |};
  {| cmd := CMD_BTEST; addr := 0; value := mask; srcarg := 2; dstarg := 3 |};
  {| cmd := CMD_PREDICATE; addr := 0; value := 4; srcarg := 3; dstarg := 0 |};
  {| cmd := CMD_PIO_WRITE_8; addr := imr; value := 0; srcarg := 0; dstarg := 0 |};
  {| cmd := CMD_PIO_WRITE_A_8; addr := isr; value := 0; srcarg := 3; dstarg := 0 |};
  {| cmd := CMD_PIO_READ_8; addr := tsr; value := 0; srcarg := 0; dstarg := 3 |};
  {| cmd := CMD_ACCEPT; addr := 0; value := 0; srcarg := 0; dstarg := 0 |}
].

Definition ne2k_code (isr imr tsr mask : Z) : irq_code_t :=
  {| cmds := ne2k_cmds isr imr tsr mask |}.

(** The five-command program of the design document's predicate test:
    read the status register at [isr] into [r0], mask it with [0x7F] into
    [r1], predicate on [r1] over one command, decline, accept. *)
Definition predicate_test_code (isr : Z) : irq_code_t := {| cmds := [
  {| cmd := CMD_PIO_READ_8; addr := isr; value := 0; srcarg := 0; dstarg := 0 |};
  {| cmd := CMD_BTEST; addr := 0; value := 0x7F; srcarg := 0; dstarg := 1 |};
  {| cmd := CMD_PREDICATE; addr := 0; value := 1; srcarg := 1; dstarg := 0 |};
  {| cmd := CMD_DECLINE; addr := 0; value := 0; srcarg := 0; dstarg := 0 |};
  {| cmd := CMD_ACCEPT; addr := 0; value := 0; srcarg := 0; dstarg := 0 |}
] |}.

End Irq.

(** ** The NE2000 driver: [ne2000.c] *)

Module Ne2000.
Import Irq.

(** [EOK] of [errno.h]. *)
Definition EOK : Z := 0.

(** The character [\n]. *)
Definition newline : string := String (Ascii.ascii_of_nat 10) EmptyString.

(** [device_state_t] of [net/device.h]: the two states the driver names,
    and the enumerators it does not name. *)
Inductive device_state_t :=
| NETIF_STOPPED
| NETIF_ACTIVE
| NETIF_OTHER (n : nat).

#[global] Instance device_state_eq_dec : EqDecision device_state_t.
Proof. solve_decision. Defined.

(** The members of [ne2k_t] ([dp8390.h]) and [netif_device_t]
    ([netif_skel.h]) that [ne2000.c] uses. *)
Record ne2k_t := {
  port : Z;          (* void *port *)
  irq : Z            (* int irq *)
}.

Record netif_device_t := {
  device_id : Z;
  nil_phone : Z;
  specific : ne2k_t;
  state : device_state_t
}.

(** What the driver asks of the rest of the system, in the order of the
    calls.  [Register_irq] and [Ne2k_up] carry the code the call
    returned. *)
Inductive event :=
| Register_irq (inr devno method : Z) (code : irq_code_t) (rc : Z)
| Unregister_irq (inr devno : Z)
| Ne2k_up (rc : Z)
| Ne2k_down
| Printf (text : string)
| Irc_enable_interrupt (phone inr : Z).

(** The file's variables: the array [ne2k_cmds], [irc_service] and
    [irc_phone]; and the calls made so far. *)
Record driver := {
  ne2k_cmds : list irq_cmd_t;
  irc_service : bool;
  irc_phone : Z;
  trace : list event
}.

Definition emit (e : event) (w : driver) : driver :=
  {| ne2k_cmds := ne2k_cmds w; irc_service := irc_service w;
     irc_phone := irc_phone w; trace := trace w ++ [e] |}.

Definition with_cmds (cmds : list irq_cmd_t) (w : driver) : driver :=
  {| ne2k_cmds := cmds; irc_service := irc_service w;
     irc_phone := irc_phone w; trace := trace w |}.

Definition set_state (s : device_state_t) (d : netif_device_t) : netif_device_t :=
  {| device_id := device_id d; nil_phone := nil_phone d;
     specific := specific d; state := s |}.

(** [cmd.addr = p]. *)
Definition set_addr (p : Z) (c : irq_cmd_t) : irq_cmd_t :=
  {| cmd := cmd c; addr := p; value := value c;
     srcarg := srcarg c; dstarg := dstarg c |}.

Section Driver.

(** [NAME], the register offsets [DP_ISR], [DP_IMR], [DP_TSR] of
    [dp8390.h] and the integer values of the [device_state_t]
    enumerators. *)
Variable NAME : string.
Variables DP_ISR DP_IMR DP_TSR : Z.
Variable state_code : device_state_t → Z.

(** [change_state]. *)
Definition state_desc (s : device_state_t) : string :=
  match s with
  | NETIF_ACTIVE => "active"
  | NETIF_STOPPED => "stopped"
  | NETIF_OTHER _ => "unknown"
  end.

Definition change_state (s : device_state_t) (dw : netif_device_t * driver)
  : netif_device_t * driver :=
  let '(d, w) := dw in
  if decide (state d ≠ s) then
    (set_state s d,
     emit (Printf (NAME ++ ": State changed to " ++ state_desc s ++ newline)) w)
  else (d, w).

(** The four assignments to [ne2k_cmds[..].addr] in
    [netif_start_message]. *)
Definition patch_cmds (ne2k : ne2k_t) (cmds : list irq_cmd_t) : list irq_cmd_t :=
  let cmds := alter (set_addr (port ne2k + DP_ISR)) 0%nat cmds in
  let cmds := alter (set_addr (port ne2k + DP_IMR)) 3%nat cmds in
  let cmds := alter (set_addr (from_option addr 0 (cmds !! 0%nat))) 4%nat cmds in
  alter (set_addr (port ne2k + DP_TSR)) 5%nat cmds.

(** [netif_start_message].  [rc_register_irq] and [rc_ne2k_up] are what
    [register_irq] and [ne2k_up] return if they are called. *)
Definition netif_start_message (rc_register_irq rc_ne2k_up : Z)
    (dw : netif_device_t * driver) : Z * (netif_device_t * driver) :=
  let '(device, w) := dw in
  if decide (state device ≠ NETIF_ACTIVE) then
    let ne2k := specific device in
    let w := with_cmds (patch_cmds ne2k (ne2k_cmds w)) w in
    let w := emit (Register_irq (irq ne2k) (device_id device) (device_id device)
                     {| cmds := ne2k_cmds w |} rc_register_irq) w in
    if decide (rc_register_irq ≠ EOK) then (rc_register_irq, (device, w))
    else
      let w := emit (Ne2k_up rc_ne2k_up) w in
      if decide (rc_ne2k_up ≠ EOK) then
        (rc_ne2k_up, (device, emit (Unregister_irq (irq ne2k) (device_id device)) w))
      else
        let '(device, w) := change_state NETIF_ACTIVE (device, w) in
        let w := if irc_service w
                 then emit (Irc_enable_interrupt (irc_phone w) (irq ne2k)) w
                 else w in
        (state_code (state device), (device, w))
  else (state_code (state device), (device, w)).

(** [netif_stop_message]. *)
Definition netif_stop_message (dw : netif_device_t * driver)
  : Z * (netif_device_t * driver) :=
  let '(device, w) := dw in
  if decide (state device ≠ NETIF_STOPPED) then
    let ne2k := specific device in
    let w := emit Ne2k_down w in
    let w := emit (Unregister_irq (irq ne2k) (device_id device)) w in
    let '(device, w) := change_state NETIF_STOPPED (device, w) in
    (state_code (state device), (device, w))
  else (state_code (state device), (device, w)).

(** The driver after the call of [register_irq]. *)
Definition registering (rc : Z) (d : netif_device_t) (w : driver) : driver :=
  emit (Register_irq (irq (specific d)) (device_id d) (device_id d)
          {| cmds := patch_cmds (specific d) (ne2k_cmds w) |} rc)
    (with_cmds (patch_cmds (specific d) (ne2k_cmds w)) w).

(** The driver after a start that went through. *)
Definition started (d : netif_device_t) (w : driver) : driver :=
  let w1 := emit (Printf (NAME ++ ": State changed to "
                          ++ state_desc NETIF_ACTIVE ++ newline))
              (emit (Ne2k_up EOK) (registering EOK d w)) in
  if irc_service w1
  then emit (Irc_enable_interrupt (irc_phone w1) (irq (specific d))) w1
  else w1.

(** Requests to one device, one after the other. *)
Inductive request :=
| Start (rc_register_irq rc_ne2k_up : Z)
| Stop.

Definition serve (r : request) (dw : netif_device_t * driver)
  : netif_device_t * driver :=
  match r with
  | Start rc1 rc2 => snd (netif_start_message rc1 rc2 dw)
  | Stop => snd (netif_stop_message dw)
  end.

Definition serve_all (rs : list request) (dw : netif_device_t * driver)
  : netif_device_t * driver :=
  foldl (λ dw r, serve r dw) dw rs.

End Driver.

(** Whether the kernel holds an interrupt registration after the calls
    of a trace that starts with [held]; [None] when the trace registers
    what is registered or unregisters what is not. *)
Fixpoint irq_held (held : bool) (tr : list event) : option bool :=
  match tr with
  | [] => Some held
  | Register_irq _ _ _ _ rc :: tr' =>
      if decide (rc = EOK)
      then (if held then None else irq_held true tr')
      else irq_held held tr'
  | Unregister_irq _ _ :: tr' =>
      if held then irq_held false tr' else None
  | _ :: tr' => irq_held held tr'
  end.

(** The device is stopped and holds no interrupt registration, or is
    active and holds one. *)
Definition in_step (dw : netif_device_t * driver) : Prop :=
  (state dw.1 = NETIF_STOPPED ∧ irq_held false (trace dw.2) = Some false) ∨
  (state dw.1 = NETIF_ACTIVE ∧ irq_held false (trace dw.2) = Some true).

(** [ne2k_cmds] as the file initializes it ([mask] stands for the
    interrupt causes or-ed together in the second command). *)
Definition ne2k_cmds_initial (mask : Z) : list irq_cmd_t :=
  Irq.ne2k_cmds 0 0 0 mask.

(** *** [netif_probe_message] *)

(** An argument of a [printf] call; the formats are kept as the source
    writes them. *)
Inductive printf_arg :=
| Arg_str (s : string)
| Arg_ptr (p : Z)
| Arg_int (n : Z)
| Arg_char (c : Ascii.ascii).

(** The calls [netif_probe_message] makes; a pointer is the address of
    the block, [None] is [NULL]. *)
Inductive probe_event :=
| Malloc (block : option Z)
| Free (block : Z)
| Pio_enable (io size : Z) (rc : Z)
| Bzero (block : Z)
| Ne2k_probe (ne2k : Z) (port : Z) (inr : Z) (rc : Z)
| Device_map_add (id : Z) (device : Z) (rc : Z)
| Printf_call (format : string) (args : list printf_arg).

(** What the calls of one [netif_probe_message] return: the two
    [malloc]s, [pio_enable] with the port it stores, [ne2k_probe] with
    what it leaves in [*ne2k] (the members above and the station address
    [mac]), and [netif_device_map_add]. *)
Record probe_answers := {
  malloc_device : option Z;
  malloc_ne2k : option Z;
  pio_enable_rc : Z;
  pio_enable_port : Z;
  ne2k_probe_rc : Z;
  ne2k_probed : ne2k_t;
  ne2k_probe_mac : list Z;
  device_map_add_rc : Z
}.

(** What a block of the heap holds: what [malloc] left there, zeroes
    after [bzero], a [netif_device_t] with the members the function
    assigns ([specific] is the address of the [ne2k_t]), or an [ne2k_t] as
    [ne2k_probe] leaves it, with its station address. *)
Inductive block :=
| Raw
| Zeroed
| Device_block (id phone : Z) (specific_at : Z) (st : device_state_t)
| Ne2k_block (ne2k : ne2k_t) (mac : list Z).

(** The heap, by address of the block, and the calls made so far. *)
Record memory := {
  heap : gmap Z block;
  calls : list probe_event
}.

Definition called (es : list probe_event) (m : memory) : memory :=
  {| heap := heap m; calls := calls m ++ es |}.

Definition store (b : Z) (v : block) (m : memory) : memory :=
  {| heap := <[b := v]> (heap m); calls := calls m |}.

(** [malloc] with the pointer it returns, [free] and [bzero]. *)
Definition malloc (answer : option Z) (m : memory) : memory :=
  called [Malloc answer]
    match answer with
    | Some b => store b Raw m
    | None => m
    end.

Definition free (b : Z) (m : memory) : memory :=
  called [Free b] {| heap := delete b (heap m); calls := calls m |}.

Definition bzero (b : Z) (m : memory) : memory :=
  called [Bzero b] (store b Zeroed m).

(** [ne2k->mac], read from the block at [ne2k]. *)
Definition mac_at (ne2k : Z) (m : memory) : list Z :=
  match heap m !! ne2k with
  | Some (Ne2k_block _ mac) => mac
  | _ => []
  end.

(** A pointer [malloc] may return on the heap [h]: [NULL], or the address
    of a block that is not in use. *)
Definition unused (h : gmap Z block) (answer : option Z) : Prop :=
  match answer with
  | Some b => h !! b = None
  | None => True
  end.

(** The loop [for (i = 0; i < ETH_ADDR; i++) printf("%02x%c", ...)] from
    index [i] on, over the bytes of [ne2k->mac] that are left. *)
Fixpoint print_mac (i : nat) (mac : list Z) : list probe_event :=
  match mac with
  | [] => []
  | m :: mac' =>
      Printf_call "%02x%c"
        [Arg_int m;
         Arg_char (Ascii.ascii_of_nat (if decide (i < 5)%nat then 58 else 10))]
      :: print_mac (S i) mac'
  end.

Section Probe.

(** [NAME], [ENOMEM] of [errno.h], [NE2K_IO_SIZE] and [ETH_ADDR]. *)
Variable NAME : string.
Variable ENOMEM : Z.
Variable NE2K_IO_SIZE : Z.
Variable ETH_ADDR : nat.

(** [netif_probe_message] on the heap [h0]: the code returned and the
    memory it leaves. *)
Definition netif_probe_message (ans : probe_answers) (h0 : gmap Z block)
    (id : Z) (inr : Z) (io : Z) : Z * memory :=
  let m := malloc (malloc_device ans) {| heap := h0; calls := [] |} in
  match malloc_device ans with
  | None => (ENOMEM, m)
  | Some device =>
      let m := malloc (malloc_ne2k ans) m in
      match malloc_ne2k ans with
      | None => (ENOMEM, free device m)
      | Some ne2k =>
          let m := called [Pio_enable io NE2K_IO_SIZE (pio_enable_rc ans)] m in
          let port := pio_enable_port ans in
          if decide (pio_enable_rc ans ≠ EOK) then
            (pio_enable_rc ans, free device (free ne2k m))
          else
            let m := bzero ne2k (bzero device m) in
            let m := store device (Device_block id (-1) ne2k NETIF_STOPPED) m in
            let m := called [Ne2k_probe ne2k port inr (ne2k_probe_rc ans)] m in
            let m := store ne2k (Ne2k_block (ne2k_probed ans) (ne2k_probe_mac ans)) m in
            if decide (ne2k_probe_rc ans ≠ EOK) then
              (ne2k_probe_rc ans,
               free device (free ne2k
                 (called [Printf_call "%s: No ethernet card found at I/O address %p\n"
                            [Arg_str NAME; Arg_ptr port]] m)))
            else
              let m := called [Device_map_add id device (device_map_add_rc ans)] m in
              if decide (device_map_add_rc ans ≠ EOK) then
                (device_map_add_rc ans, free device (free ne2k m))
              else
                let m := called [Printf_call "%s: Ethernet card at I/O address %p, IRQ %d, MAC "
                                   [Arg_str NAME; Arg_ptr port; Arg_int inr]] m in
                (EOK, called (print_mac 0 (take ETH_ADDR (mac_at ne2k m))) m)
      end
  end.

End Probe.

(** The blocks a trace allocates and the blocks it frees, in order. *)
Definition allocated (tr : list probe_event) : list Z :=
  omap (λ e, match e with Malloc (Some b) => Some b | _ => None end) tr.

Definition freed (tr : list probe_event) : list Z :=
  omap (λ e, match e with Free b => Some b | _ => None end) tr.

(** *** A card for worked runs

    A card at port [0x300] on interrupt 9, stopped, as
    [netif_probe_message] leaves it; the register offsets of the DP8390
    and state numbers counting up from the stopped state. *)
Definition demo_device : netif_device_t :=
  {| device_id := 1; nil_phone := -1;
     specific := {| port := 0x300; irq := 9 |};
     state := NETIF_STOPPED |}.

Definition demo_driver : driver :=
  {| ne2k_cmds := ne2k_cmds_initial 0x7f; irc_service := true;
     irc_phone := 5; trace := [] |}.

Definition demo_state_code (s : device_state_t) : Z :=
  match s with
  | NETIF_STOPPED => 1
  | NETIF_ACTIVE => 2
  | NETIF_OTHER n => 3 + Z.of_nat n
  end.

End Ne2000.

(** ** The system console: [fb/sysio.c] *)

Module Sysio.

(** The methods [sysio_client_connection] tells apart ([ipc/ipc.h],
    [ipc/fb.h]) and all the others. *)
Inductive method :=
| IPC_M_PHONE_HUNGUP
| FB_PUTCHAR
| FB_CURSOR_GOTO
| FB_GET_CSIZE
| FB_CLEAR
| Other_method (n : Z).

(** A call as [async_get_call] hands it over: its identifier, the method
    and the first three arguments. *)
Record ipc_call_t := {
  callid : Z;
  imethod : method;
  arg1 : Z;
  arg2 : Z;
  arg3 : Z
}.

(** What the console driver does to the outside: [__SYSCALL3(SYS_IO, 1,
    ptr, len)] with the [len] characters at [ptr], and [ipc_answer_fast].
    The return value of an answer is [None] when the variable [retval]
    has not been assigned yet. *)
Inductive event :=
| Sys_io (text : list byte)
| Answer (id : Z) (retval : option Z) (a1 a2 : Z).

(** Conversions to [unsigned int], [int] and [char]. *)
Definition to_unsigned (z : Z) : Z := wrap 32 z.

Definition to_int (z : Z) : Z :=
  if wrap 32 z <? 2 ^ 31 then wrap 32 z else wrap 32 z - 2 ^ 32.

Definition to_char (z : Z) : byte := byte.of_Z z.

(** The conversion [%d]: the decimal numeral of an [int]. *)
Definition fmt_d (v : Z) : list byte :=
  list_byte_of_string (DecimalString.NilZero.string_of_int (Z.to_int v)).

(** The characters up to the first zero: what [strlen] measures. *)
Fixpoint c_string (s : list byte) : list byte :=
  match s with
  | [] => []
  | c :: s' => if Byte.eqb c Byte.x00 then [] else c :: c_string s'
  end.

(** [sysput] and [sysputs]. *)
Definition sysput (c : byte) : list event := [Sys_io [c]].

Definition sysputs (s : list byte) : list event := [Sys_io (c_string s)].

(** [clrscr]: the string ["\033[2J"]. *)
Definition clrscr : list event :=
  sysputs [Byte.x1b; Byte.x5b; Byte.x32; Byte.x4a; Byte.x00].

(** The array [control] after
    [snprintf(control, 20, "\033[%d;%df", row + 1, col + 1)]: at most
    nineteen characters of the text, then the zero. *)
Definition control_string (row col : Z) : list byte :=
  take 19 ([Byte.x1b; Byte.x5b] ++ fmt_d (to_int (to_unsigned (row + 1)))
           ++ [Byte.x3b] ++ fmt_d (to_int (to_unsigned (col + 1))) ++ [Byte.x66])
  ++ [Byte.x00].

(** [curs_goto]; [row] and [col] are [unsigned int]. *)
Definition curs_goto (row col : Z) : list event :=
  if (200 <? row) || (200 <? col) then []
  else sysputs (control_string row col).

(** A decimal numeral of one to three digits, none of them the zero
    character. *)
Definition short_numeral (s : list byte) : bool :=
  (1 <=? length s)%nat && (length s <=? 3)%nat
  && forallb (λ c, negb (Byte.eqb c Byte.x00)) s.

(** The cursor sequence for a position within bounds. *)
Definition cursor_sequence (row col : Z) : list byte :=
  [Byte.x1b; Byte.x5b] ++ fmt_d (row + 1) ++ [Byte.x3b] ++ fmt_d (col + 1) ++ [Byte.x66].

(** The local variables of [sysio_client_connection] that live across
    the iterations of its loop. *)
Record connection := {
  lastcol : Z;
  lastrow : Z;
  retval : option Z
}.

Section Connection.

(** [ELIMIT] and [ENOENT] of [errno.h]. *)
Variables ELIMIT ENOENT : Z.

(** One iteration of [while (1)] on the call [c]: what is done, the
    variables afterwards, and whether the function returns. *)
Definition iteration (c : ipc_call_t) (s : connection)
  : list event * connection * bool :=
  match imethod c with
  | IPC_M_PHONE_HUNGUP => ([Answer (callid c) (Some 0) 0 0], s, true)
  | FB_PUTCHAR =>
      let ch := to_char (arg1 c) in
      let newrow := to_int (arg2 c) in
      let newcol := to_int (arg3 c) in
      (((if decide (lastcol s ≠ newcol ∨ lastrow s ≠ newrow)
         then curs_goto (to_unsigned newrow) (to_unsigned newcol) else [])
        ++ sysput ch ++ [Answer (callid c) (Some 0) 0 0]),
       {| lastcol := to_int (newcol + 1); lastrow := newrow; retval := Some 0 |},
       false)
  | FB_CURSOR_GOTO =>
      let newrow := to_int (arg1 c) in
      let newcol := to_int (arg2 c) in
      (curs_goto (to_unsigned newrow) (to_unsigned newcol)
         ++ [Answer (callid c) (retval s) 0 0],
       s, false)
  | FB_GET_CSIZE => ([Answer (callid c) (Some 0) 25 80], s, false)
  | FB_CLEAR =>
      (clrscr ++ [Answer (callid c) (Some 0) 0 0],
       {| lastcol := lastcol s; lastrow := lastrow s; retval := Some 0 |},
       false)
  | Other_method _ =>
      ([Answer (callid c) (Some ENOENT) 0 0],
       {| lastcol := lastcol s; lastrow := lastrow s; retval := Some ENOENT |},
       false)
  end.

(** The loop over the calls that arrive; the flag tells whether the
    function has returned (it waits for a further call otherwise). *)
Fixpoint serve_calls (calls : list ipc_call_t) (s : connection)
  : list event * connection * bool :=
  match calls with
  | [] => ([], s, false)
  | c :: rest =>
      let '(tr, s', returned) := iteration c s in
      if returned then (tr, s', true)
      else let '(tr', s'', r) := serve_calls rest s' in (tr ++ tr', s'', r)
  end.

(** [sysio_client_connection] for the connection [iid], with the calls
    that arrive on it; [client_connected] is the file's variable, before
    and after. *)
Definition sysio_client_connection (iid : Z) (calls : list ipc_call_t)
    (client_connected : bool) : list event * bool :=
  if client_connected then ([Answer iid (Some ELIMIT) 0 0], client_connected)
  else
    let '(tr, _, returned) :=
      serve_calls calls {| lastcol := 0; lastrow := 0; retval := None |} in
    (Answer iid (Some 0) 0 0 :: tr, negb returned).

End Connection.

(** The calls a trace answers, in order, and the characters it sends to
    the console. *)
Definition answered (tr : list event) : list Z :=
  omap (λ e, match e with Answer id _ _ _ => Some id | _ => None end) tr.

Definition console (tr : list event) : list byte :=
  concat (omap (λ e, match e with Sys_io text => Some text | _ => None end) tr).

(** The calls up to the first hang-up, that one included. *)
Fixpoint until_hangup (calls : list ipc_call_t) : list ipc_call_t :=
  match calls with
  | [] => []
  | c :: rest =>
      match imethod c with
      | IPC_M_PHONE_HUNGUP => [c]
      | _ => c :: until_hangup rest
      end
  end.

(** [FB_PUTCHAR] calls for the characters [chars] in row [row] from
    column [col] on, left to right. *)
Fixpoint put_line (id : Z) (row col : Z) (chars : list Z) : list ipc_call_t :=
  match chars with
  | [] => []
  | ch :: rest =>
      {| callid := id; imethod := FB_PUTCHAR; arg1 := ch; arg2 := row; arg3 := col |}
      :: put_line (id + 1) row (col + 1) rest
  end.

End Sysio.

(** * Properties *)

Lemma wrap_small w z : 0 <= z < 2 ^ w -> wrap w z = z.
Proof. intros H. unfold wrap. now apply Z.mod_small. Qed.

(** ** Ethernet addresses *)

Module EthAddrFacts.
Import EthAddr.

Lemma testbit_unsigned_high (b : byte) (j : Z) :
  8 <= j -> Z.testbit (byte.unsigned b) j = false.
Proof.
  intros Hj. pose proof (byte.unsigned_range b) as Hb.
  destruct (Z.eq_dec (byte.unsigned b) 0) as [->|Hne]; [apply Z.bits_0|].
  apply Z.bits_above_log2; [lia|].
  apply Z.log2_lt_pow2; [lia|].
  apply Z.lt_le_trans with (2 ^ 8); [lia|].
  apply Z.pow_le_mono_r; lia.
Qed.

Lemma testbit_255 (n : Z) : 0 <= n -> Z.testbit 255 n = (n <? 8).
Proof.
  intros Hn. change 255 with (Z.ones 8).
  destruct (Z.ltb_spec n 8).
  - apply Z.ones_spec_low; lia.
  - apply Z.ones_spec_high; lia.
Qed.

Lemma shifted_byte_fits (b : byte) (i : nat) :
  (i < ETH_ADDR_SIZE)%nat ->
  wrap 64 (Z.shiftl (byte.unsigned b) (shift_of i)) = Z.shiftl (byte.unsigned b) (shift_of i).
Proof.
  intros Hi. apply wrap_small. pose proof (byte.unsigned_range b) as Hb.
  unfold ETH_ADDR_SIZE, shift_of in *.
  rewrite Z.shiftl_mul_pow2 by lia.
  split; [apply Z.mul_nonneg_nonneg; [lia | apply Z.pow_nonneg; lia]|].
  apply Z.lt_le_trans with (2 ^ 8 * 2 ^ (40 - 8 * Z.of_nat i)).
  - apply Z.mul_lt_mono_pos_r; [apply Z.pow_pos_nonneg; lia | lia].
  - rewrite <- Z.pow_add_r by lia. apply Z.pow_le_mono_r; lia.
Qed.

Ltac bit_of_byte :=
  repeat match goal with
  | |- context [Z.testbit (byte.unsigned ?b) ?j] =>
      first [ rewrite (Z.testbit_neg_r (byte.unsigned b) j) by lia
            | rewrite (testbit_unsigned_high b j) by lia ]
  end.

Lemma pack_field b0 b1 b2 b3 b4 b5 :
  let A := pack b0 b1 b2 b3 b4 b5 in
  byte.of_Z (Z.land (Z.shiftr A 40) 255) = b0 ∧
  byte.of_Z (Z.land (Z.shiftr A 32) 255) = b1 ∧
  byte.of_Z (Z.land (Z.shiftr A 24) 255) = b2 ∧
  byte.of_Z (Z.land (Z.shiftr A 16) 255) = b3 ∧
  byte.of_Z (Z.land (Z.shiftr A 8) 255) = b4 ∧
  byte.of_Z (Z.land (Z.shiftr A 0) 255) = b5.
Proof.
  intros A.
  repeat split; apply byte.unsigned_inj; rewrite byte.unsigned_of_Z;
    unfold byte.wrap; rewrite <- Z.land_ones by lia; change (Z.ones 8) with 255;
    apply Z.bits_inj'; intros n Hn;
    rewrite !Z.land_spec, Z.shiftr_spec by lia; unfold A, pack;
    rewrite !Z.lor_spec, !Z.shiftl_spec, Z.bits_0, testbit_255 by lia;
    (destruct (Z.ltb_spec n 8);
     [ bit_of_byte | rewrite (testbit_unsigned_high _ n) by lia; now rewrite ?andb_false_r ]).
  all: simpl.
  all: try match goal with |- context [Z.testbit _ ?j] => replace j with n by lia end.
  all: rewrite ?andb_true_r, ?orb_false_r; try reflexivity.
Qed.

Lemma unsigned_field (A k j : Z) :
  0 <= k -> 0 <= j ->
  Z.testbit (byte.unsigned (byte.of_Z (Z.land (Z.shiftr A k) 255))) j
  = (j <? 8) && Z.testbit A (j + k).
Proof.
  intros Hk Hj. rewrite byte.unsigned_of_Z. unfold byte.wrap.
  rewrite <- Z.land_ones by lia. change (Z.ones 8) with 255.
  rewrite !Z.land_spec, Z.shiftr_spec, testbit_255 by lia.
  destruct (j <? 8), (Z.testbit A (j + k)); reflexivity.
Qed.

Lemma testbit_above_48 (A n : Z) :
  0 <= A < 2 ^ 48 -> 48 <= n -> Z.testbit A n = false.
Proof.
  intros HA Hn.
  destruct (Z.eq_dec A 0) as [->|Hne]; [apply Z.bits_0|].
  apply Z.bits_above_log2; [lia|].
  apply Z.log2_lt_pow2; [lia|].
  apply Z.lt_le_trans with (2 ^ 48); [lia|].
  apply Z.pow_le_mono_r; lia.
Qed.

Lemma pack_fields_of (A : Z) :
  0 <= A < 2 ^ 48 ->
  pack (byte.of_Z (Z.land (Z.shiftr A 40) 255))
       (byte.of_Z (Z.land (Z.shiftr A 32) 255))
       (byte.of_Z (Z.land (Z.shiftr A 24) 255))
       (byte.of_Z (Z.land (Z.shiftr A 16) 255))
       (byte.of_Z (Z.land (Z.shiftr A 8) 255))
       (byte.of_Z (Z.land (Z.shiftr A 0) 255)) = A.
Proof.
  intros HA. unfold pack. apply Z.bits_inj'. intros n Hn.
  rewrite !Z.lor_spec, !Z.shiftl_spec, Z.bits_0 by lia.
  destruct (Z.le_gt_cases 48 n) as [Hhi|Hlo].
  - rewrite (testbit_above_48 A n) by lia.
    rewrite !unsigned_field by lia.
    repeat match goal with
    | |- context [?j <? 8] => destruct (Z.ltb_spec j 8); [lia|]
    end. reflexivity.
  - assert (Hcase : 40 <= n \/ 32 <= n < 40 \/ 24 <= n < 32 \/
                    16 <= n < 24 \/ 8 <= n < 16 \/ n < 8) by lia.
    destruct Hcase as [?|[?|[?|[?|[?|?]]]]];
    repeat match goal with
    | |- context [Z.testbit (byte.unsigned ?b) ?j] =>
        first [ rewrite (Z.testbit_neg_r (byte.unsigned b) j) by lia
              | rewrite (testbit_unsigned_high b j) by lia
              | rewrite (unsigned_field _ _ j) by lia;
                replace (j <? 8) with true by (symmetry; apply Z.ltb_lt; lia) ]
    end;
    simpl;
    match goal with
    | |- context [Z.testbit A ?j] => replace j with n by lia
    end;
    now rewrite ?orb_false_r.
Qed.

Lemma six_bytes (l : list byte) :
  length l = ETH_ADDR_SIZE -> exists b0 b1 b2 b3 b4 b5, l = [b0; b1; b2; b3; b4; b5].
Proof.
  intros Hl. do 6 (destruct l as [|? l]; [discriminate Hl|]).
  destruct l; [|discriminate Hl]. eauto 7.
Qed.

Lemma decode_six b0 b1 b2 b3 b4 b5 :
  eth_addr_decode [b0; b1; b2; b3; b4; b5] = Some {| a := pack b0 b1 b2 b3 b4 b5 |}.
Proof.
  unfold eth_addr_decode, ETH_ADDR_SIZE.
  cbn [decode_loop lookup list_lookup].
  rewrite !shifted_byte_fits by (unfold ETH_ADDR_SIZE; lia).
  reflexivity.
Qed.

Lemma encode_six (A : Z) o0 o1 o2 o3 o4 o5 :
  eth_addr_encode {| a := A |} [o0; o1; o2; o3; o4; o5]
  = Some [byte.of_Z (Z.land (Z.shiftr A 40) 255);
          byte.of_Z (Z.land (Z.shiftr A 32) 255);
          byte.of_Z (Z.land (Z.shiftr A 24) 255);
          byte.of_Z (Z.land (Z.shiftr A 16) 255);
          byte.of_Z (Z.land (Z.shiftr A 8) 255);
          byte.of_Z (Z.land (Z.shiftr A 0) 255)].
Proof. reflexivity. Qed.

(** C10.  Encoding and decoding are inverse to each other: decoding a
    six-byte buffer and encoding the address gives the buffer back, and
    encoding an address that fits 48 bits and decoding the bytes gives the
    address back. *)
Theorem eth_addr_roundtrip :
  (forall b out : list byte,
     length b = ETH_ADDR_SIZE -> length out = ETH_ADDR_SIZE ->
     exists addr, eth_addr_decode b = Some addr /\ eth_addr_encode addr out = Some b) /\
  (forall (addr : eth_addr_t) (out : list byte),
     0 <= a addr < 2 ^ 48 -> length out = ETH_ADDR_SIZE ->
     exists b, eth_addr_encode addr out = Some b /\ eth_addr_decode b = Some addr).
Proof.
  split.
  - intros b out Hb Hout.
    destruct (six_bytes b Hb) as (b0 & b1 & b2 & b3 & b4 & b5 & ->).
    destruct (six_bytes out Hout) as (o0 & o1 & o2 & o3 & o4 & o5 & ->).
    eexists. split; [apply decode_six|].
    rewrite encode_six.
    destruct (pack_field b0 b1 b2 b3 b4 b5) as (-> & -> & -> & -> & -> & ->).
    reflexivity.
  - intros [A] out HA Hout. simpl in HA.
    destruct (six_bytes out Hout) as (o0 & o1 & o2 & o3 & o4 & o5 & ->).
    eexists. split; [apply encode_six|].
    rewrite decode_six. now rewrite pack_fields_of.
Qed.

Lemma eth_addr_roundtrip_witness :
  (∃ addr,
     eth_addr_decode [Byte.x00; Byte.x1b; Byte.x21; Byte.x3c; Byte.x9d; Byte.xff]
       = Some addr ∧
     eth_addr_encode addr (replicate 6 Byte.x00)
       = Some [Byte.x00; Byte.x1b; Byte.x21; Byte.x3c; Byte.x9d; Byte.xff]) ∧
  (0 <= a {| a := 0x001b213c9dff |} < 2 ^ 48 ∧
   ∃ b, eth_addr_encode {| a := 0x001b213c9dff |} (replicate 6 Byte.x00) = Some b ∧
        eth_addr_decode b = Some {| a := 0x001b213c9dff |}).
Proof.
  split.
  - apply (proj1 eth_addr_roundtrip); reflexivity.
  - assert (Hfit : 0 <= a {| a := 0x001b213c9dff |} < 2 ^ 48) by (simpl; lia).
    split; [exact Hfit|].
    apply (proj2 eth_addr_roundtrip); [exact Hfit|reflexivity].
Defined.

End EthAddrFacts.

(** ** Timeouts *)

Module TimeoutFacts.
Import Timeout.

(** Inversion of a bind that returned. *)
Lemma bind_Ok {A B} (m : result A) (f : A → result B) (y : B) :
  (x ← m; f x) = Ok y ↔ ∃ x, m = Ok x ∧ f x = Ok y.
Proof.
  destruct m as [x| |]; simpl; split.
  - eauto.
  - intros (x' & Hx & Hf). now inversion Hx; subst.
  - discriminate.
  - intros (? & ? & _); discriminate.
  - discriminate.
  - intros (? & ? & _); discriminate.
Qed.

Lemma deref_Ok {A} (store : gmap nat A) (p : nat) (x : A) :
  deref store p = Ok x ↔ store !! p = Some x.
Proof.
  unfold deref. destruct (store !! p); split; intros E; inversion E; subst; auto.
Qed.

(** What the insertion loop returns: it went past [n] nodes, all with a
    deadline no later than [d], and stopped at the end of the list or at
    a node with a later deadline. *)
Lemma insertion_scan_Ok ts d l cur prev r :
  insertion_scan ts d l cur prev = Ok r →
  ∃ n, (n ≤ length l)%nat ∧
       r = match n with O => prev | S n' => Some (cur + n')%nat end ∧
       Forall (λ p, ∃ t, ts !! p = Some t ∧ deadline t <= d) (take n l) ∧
       match l !! n with
       | Some q => ∃ t, ts !! q = Some t ∧ d < deadline t
       | None => True
       end.
Proof.
  revert cur prev r. induction l as [|p rest IH]; intros cur prev r; simpl.
  - intros [= <-]. exists O. simpl. auto.
  - intros Hscan. apply bind_Ok in Hscan as (target & Hp & Hscan).
    apply deref_Ok in Hp.
    destruct (Z.ltb_spec d (deadline target)) as [Hlt|Hge].
    + inversion Hscan; subst. exists O. simpl. repeat split; eauto with lia.
    + apply IH in Hscan as (n & Hn & -> & Hall & Hstop).
      exists (S n). simpl. repeat split.
      * lia.
      * destruct n; f_equal; lia.
      * constructor; eauto.
      * exact Hstop.
Qed.

Lemma insertion_scan_total ts d l cur prev :
  Forall (λ p, is_Some (ts !! p)) l →
  ∃ r, insertion_scan ts d l cur prev = Ok r.
Proof.
  intros Hall. revert cur prev.
  induction Hall as [|p rest [t Ht] _ IH]; intros cur prev; simpl; [eauto|].
  unfold deref. rewrite Ht. simpl.
  destruct (d <? deadline t); eauto.
Qed.

Lemma link_after_scan timeout n l :
  match match n with O => None | S n' => Some (0 + n')%nat end with
  | None => list_prepend timeout l
  | Some i => list_insert_after timeout i l
  end = inserted timeout n l.
Proof. destruct n; reflexivity. Qed.


Lemma timeout_register_Ok us2ticks CPU timeout time h a k k' :
  timeout_register us2ticks CPU timeout time h a k = Ok k' →
  ∃ c t n,
    cpus k !! CPU = Some c ∧ timeouts k !! timeout = Some t ∧ cpu t = None ∧
    let t' := registered us2ticks CPU c time h a in
    let ts' := <[timeout := t']> (timeouts k) in
    let l := timeout_active_list c in
    (n ≤ length l)%nat ∧
    Forall (λ p, ∃ tp, ts' !! p = Some tp ∧ deadline tp <= deadline t') (take n l) ∧
    match l !! n with
    | Some q => ∃ tq, ts' !! q = Some tq ∧ deadline t' < deadline tq
    | None => True
    end ∧
    k' = {| cpus := <[CPU := {| current_clock_tick := current_clock_tick c;
                               timeout_active_list := inserted timeout n l |}]> (cpus k);
            timeouts := ts' |}.
Proof.
  unfold timeout_register. intros Hreg.
  apply bind_Ok in Hreg as (c & Hc & Hreg). apply deref_Ok in Hc.
  apply bind_Ok in Hreg as (t & Ht & Hreg). apply deref_Ok in Ht.
  destruct (cpu t) as [owner|] eqn:Hcpu; [discriminate|].
  apply bind_Ok in Hreg as (prev & Hscan & Hk').
  apply insertion_scan_Ok in Hscan as (n & Hn & -> & Hall & Hstop).
  rewrite link_after_scan in Hk'. inversion Hk'; subst k'; clear Hk'.
  exists c, t, n. repeat split; auto.
Qed.

Lemma timeout_unregister_Ok timeout k b k' :
  timeout_unregister timeout k = Ok (b, k') →
  ∃ t, timeouts k !! timeout = Some t ∧
    ((cpu t = None ∧ b = false ∧ k' = k) ∨
     (∃ c, cpu t = Some c ∧ is_Some (cpus k !! c) ∧ b = true ∧
           k' = timeout_reinitialize timeout (list_remove timeout k))).
Proof.
  unfold timeout_unregister. intros Hun.
  apply bind_Ok in Hun as (t & Ht & Hun). apply deref_Ok in Ht.
  exists t. split; [exact Ht|].
  destruct (cpu t) as [owner|] eqn:Hcpu.
  - right. apply bind_Ok in Hun as (c & Hc & Hun). apply deref_Ok in Hc.
    apply bind_Ok in Hun as (? & _ & Hun). inversion Hun; subst.
    exists owner. rewrite Hc. eauto.
  - left. inversion Hun; subst. auto.
Qed.

(** *** Ordered lists *)

Lemma StronglySorted_insert (f : nat → Z) (d : Z) (x : nat) (n : nat) (l : list nat) :
  StronglySorted Z.le (f <$> l) →
  Forall (λ p, f p <= d) (take n l) →
  match l !! n with Some q => d < f q | None => True end →
  f x = d →
  StronglySorted Z.le (f <$> (take n l ++ x :: drop n l)).
Proof.
  revert n. induction l as [|p rest IH]; intros n Hs Hpre Hstop Hx.
  - rewrite take_nil, drop_nil. simpl. repeat constructor.
  - destruct n as [|n]; simpl in *.
    + constructor; [exact Hs|].
      apply StronglySorted_inv in Hs as [_ Hall].
      constructor; [lia|].
      eapply Forall_impl; [exact Hall|]. simpl. intros; lia.
    + apply StronglySorted_inv in Hs as [Hs Hall].
      apply Forall_cons in Hpre as [Hp Hpre].
      constructor; [apply IH; auto|].
      rewrite fmap_app, fmap_cons, Forall_app, Forall_cons.
      rewrite <- (take_drop n rest), fmap_app, Forall_app in Hall.
      destruct Hall as [Hall1 Hall2]. repeat split; auto. lia.
Qed.

Lemma StronglySorted_filter (f : nat → Z) (P : nat → Prop) `{∀ x, Decision (P x)}
    (l : list nat) :
  StronglySorted Z.le (f <$> l) → StronglySorted Z.le (f <$> filter P l).
Proof.
  induction l as [|p rest IH]; intros Hs; [constructor|].
  rewrite fmap_cons in Hs. apply StronglySorted_inv in Hs as [Hs Hall].
  rewrite filter_cons. destruct (decide (P p)); [|auto].
  rewrite fmap_cons. constructor; [auto|].
  rewrite Forall_fmap, Forall_forall in Hall.
  rewrite Forall_fmap, Forall_forall. intros q Hq.
  apply list_elem_of_filter in Hq as [_ Hq]. auto.
Qed.

Lemma deadlines_set_timeout p t k l :
  p ∉ l → deadlines (set_timeout p t k) l = deadlines k l.
Proof.
  intros Hp. unfold deadlines. apply list_fmap_ext. intros i q Hq.
  unfold deadline_of, set_timeout. simpl.
  rewrite lookup_insert_ne; [reflexivity|].
  intros ->. apply Hp. eapply list_elem_of_lookup_2; eauto.
Qed.


(** *** The invariant *)

Lemma linked_owned k :
  consistent k → ∀ c cs p,
    cpus k !! c = Some cs → p ∈ timeout_active_list cs →
    ∃ t, timeouts k !! p = Some t ∧ cpu t = Some c.
Proof.
  intros (Hl & _ & _) c cs p Hc Hp.
  specialize (Hl c cs Hc). simpl in Hl. rewrite Forall_forall in Hl.
  specialize (Hl p Hp). unfold owned_by in Hl.
  destruct (timeouts k !! p) as [t|]; [|discriminate].
  exists t. split; [reflexivity|]. now inversion Hl.
Qed.

Lemma owner_exists k :
  consistent k → ∀ p t c,
    timeouts k !! p = Some t → cpu t = Some c → is_Some (cpus k !! c).
Proof.
  intros (_ & Ho & _) p t c Ht Hcpu.
  specialize (Ho p t Ht). simpl in Ho. unfold owner_known in Ho.
  now rewrite Hcpu in Ho.
Qed.

Lemma lists_sorted k :
  consistent k → ∀ c cs,
    cpus k !! c = Some cs →
    StronglySorted Z.le (deadlines k (timeout_active_list cs)).
Proof. intros (_ & _ & Hs) c cs Hc. exact (Hs c cs Hc). Qed.

Lemma consistent_intro k :
  (∀ c cs p, cpus k !! c = Some cs → p ∈ timeout_active_list cs →
             ∃ t, timeouts k !! p = Some t ∧ cpu t = Some c) →
  (∀ p t c, timeouts k !! p = Some t → cpu t = Some c → is_Some (cpus k !! c)) →
  (∀ c cs, cpus k !! c = Some cs →
           StronglySorted Z.le (deadlines k (timeout_active_list cs))) →
  consistent k.
Proof.
  intros Hl Ho Hs. split; [|split].
  - intros c cs Hc. simpl. apply Forall_forall. intros p Hp.
    destruct (Hl c cs p Hc Hp) as (t & Ht & Hcpu).
    unfold owned_by. rewrite Ht. simpl. now rewrite Hcpu.
  - intros p t Ht. simpl. unfold owner_known.
    destruct (cpu t) as [c|] eqn:Hcpu; [eauto|exact I].
  - intros c cs Hc. simpl. eauto.
Qed.

Lemma booted_consistent k : booted k → consistent k.
Proof.
  intros [Hlists Hidle]. apply consistent_intro.
  - intros c cs p Hc Hp. rewrite (Hlists c cs Hc) in Hp. inversion Hp.
  - intros p t c Ht Hcpu. rewrite (Hidle p t Ht) in Hcpu. discriminate.
  - intros c cs Hc. rewrite (Hlists c cs Hc). constructor.
Qed.

(** An idle timeout is in no list. *)
Lemma idle_not_linked k p t c cs :
  consistent k → timeouts k !! p = Some t → cpu t = None →
  cpus k !! c = Some cs → p ∉ timeout_active_list cs.
Proof.
  intros Hk Ht Hidle Hc Hin.
  destruct (linked_owned k Hk c cs p Hc Hin) as (t' & Ht' & Hcpu). congruence.
Qed.

Lemma elem_of_inserted p x n l : p ∈ inserted x n l ↔ p = x ∨ p ∈ l.
Proof.
  unfold inserted. rewrite elem_of_app, elem_of_cons.
  assert (p ∈ l ↔ p ∈ take n l ∨ p ∈ drop n l) as ->
    by (rewrite <- elem_of_app; now rewrite take_drop).
  tauto.
Qed.

Lemma timeout_register_consistent us2ticks CPU timeout time h a k k' :
  consistent k →
  timeout_register us2ticks CPU timeout time h a k = Ok k' →
  consistent k'.
Proof.
  intros Hk Hreg.
  apply timeout_register_Ok in Hreg
    as (c & t & n & Hc & Ht & Hidle & Hn & Hpre & Hstop & ->).
  set (t' := registered us2ticks CPU c time h a) in *.
  assert (Hfresh : ∀ c0 cs0, cpus k !! c0 = Some cs0 → timeout ∉ timeout_active_list cs0)
    by (intros; eapply idle_not_linked; eauto).
  apply consistent_intro; simpl.
  - intros c0 cs0 p Hc0 Hp.
    destruct (decide (c0 = CPU)) as [->|Hne].
    + rewrite lookup_insert_eq in Hc0. inversion Hc0; subst cs0; clear Hc0.
      simpl in Hp. apply elem_of_inserted in Hp as [->|Hp].
      * exists t'. rewrite lookup_insert_eq. auto.
      * destruct (linked_owned k Hk CPU c p Hc Hp) as (tp & Htp & Hcpu).
        exists tp. rewrite lookup_insert_ne; [auto|].
        intros <-. eapply Hfresh; eauto.
    + rewrite lookup_insert_ne in Hc0 by auto.
      destruct (linked_owned k Hk c0 cs0 p Hc0 Hp) as (tp & Htp & Hcpu).
      exists tp. rewrite lookup_insert_ne; [auto|].
      intros <-. eapply Hfresh; eauto.
  - intros p tp c0 Htp Hcpu.
    destruct (decide (p = timeout)) as [->|Hne].
    + rewrite lookup_insert_eq in Htp. inversion Htp; subst tp.
      simpl in Hcpu. inversion Hcpu; subst c0. rewrite lookup_insert_eq. eauto.
    + rewrite lookup_insert_ne in Htp by auto.
      destruct (owner_exists k Hk p tp c0 Htp Hcpu) as [cs0 Hcs0].
      destruct (decide (c0 = CPU)) as [->|Hne'].
      * rewrite lookup_insert_eq. eauto.
      * rewrite lookup_insert_ne by auto. eauto.
  - intros c0 cs0 Hc0.
    change {| cpus := ?cs; timeouts := <[timeout := t']> (timeouts k) |}
      with (set_timeout timeout t' {| cpus := cs; timeouts := timeouts k |}).
    destruct (decide (c0 = CPU)) as [->|Hne].
    + rewrite lookup_insert_eq in Hc0. inversion Hc0; subst cs0; clear Hc0. simpl.
      unfold deadlines, inserted.
      apply StronglySorted_insert with (d := deadline t').
      * pose proof (lists_sorted k Hk CPU c Hc) as Hs.
        rewrite <- (deadlines_set_timeout timeout t' k) in Hs by eauto. exact Hs.
      * eapply Forall_impl; [exact Hpre|]. simpl. intros p (tp & Htp & Hle).
        unfold deadline_of. simpl. now rewrite Htp.
      * destruct (timeout_active_list c !! n) as [q|]; [|exact I].
        destruct Hstop as (tq & Htq & Hlt). unfold deadline_of. simpl. now rewrite Htq.
      * unfold deadline_of. simpl. now rewrite lookup_insert_eq.
    + rewrite lookup_insert_ne in Hc0 by auto.
      rewrite deadlines_set_timeout by eauto.
      exact (lists_sorted k Hk c0 cs0 Hc0).
Qed.

Lemma timeout_unregister_consistent timeout k b k' :
  consistent k →
  timeout_unregister timeout k = Ok (b, k') →
  consistent k'.
Proof.
  intros Hk Hun.
  apply timeout_unregister_Ok in Hun as (t & Ht & [(_ & _ & ->)|(c & Hcpu & _ & _ & ->)]);
    [exact Hk|].
  unfold timeout_reinitialize, list_remove, set_timeout.
  apply consistent_intro; simpl.
  - intros c0 cs0 p Hc0 Hp.
    apply lookup_fmap_Some in Hc0 as (cs & <- & Hcs). simpl in Hp.
    apply list_elem_of_filter in Hp as [Hne Hp].
    destruct (linked_owned k Hk c0 cs p Hcs Hp) as (tp & Htp & Hown).
    exists tp. rewrite lookup_insert_ne by auto. auto.
  - intros p tp c0 Htp Hown.
    destruct (decide (p = timeout)) as [->|Hne].
    + rewrite lookup_insert_eq in Htp. inversion Htp; subst tp. discriminate.
    + rewrite lookup_insert_ne in Htp by auto.
      destruct (owner_exists k Hk p tp c0 Htp Hown) as [cs0 Hcs0].
      rewrite lookup_fmap, Hcs0. simpl. eauto.
  - intros c0 cs0 Hc0.
    apply lookup_fmap_Some in Hc0 as (cs & <- & Hcs). simpl.
    change {| cpus := ?m; timeouts := <[timeout := reinitialized]> (timeouts k) |}
      with (set_timeout timeout reinitialized {| cpus := m; timeouts := timeouts k |}).
    rewrite deadlines_set_timeout.
    + apply StronglySorted_filter. exact (lists_sorted k Hk c0 cs Hcs).
    + intros Hin. apply list_elem_of_filter in Hin as [Hne _]. auto.
Qed.

Lemma do_calls_consistent us2ticks calls k k' :
  consistent k → do_calls us2ticks calls k = Ok k' → consistent k'.
Proof.
  revert k. induction calls as [|c rest IH]; intros k Hk; simpl.
  - intros [= <-]. exact Hk.
  - intros Hrun. apply bind_Ok in Hrun as (k1 & Hcall & Hrun).
    apply (IH k1); [|exact Hrun].
    destruct c as [CPU timeout time h a|timeout]; simpl in Hcall.
    + eapply timeout_register_consistent; eauto.
    + apply bind_Ok in Hcall as ([b k2] & Hun & [= <-]).
      eapply timeout_unregister_consistent; eauto.
Qed.


Lemma list_next_elem_of p l q : list_next p l = Some q → q ∈ l.
Proof.
  induction l as [|x rest IH]; simpl; [discriminate|].
  destruct (decide (x = p)).
  - destruct rest; simpl; [discriminate|]. intros [= ->]. set_solver.
  - intros Hq. apply IH in Hq. set_solver.
Qed.

Lemma insertion_scan_no_panic ts d l cur prev msg :
  insertion_scan ts d l cur prev ≠ Panic msg.
Proof.
  revert cur prev. induction l as [|p rest IH]; intros cur prev; simpl; [discriminate|].
  unfold deref. destruct (ts !! p) as [t|]; simpl; [|discriminate].
  destruct (d <? deadline t); [discriminate|apply IH].
Qed.

(** [timeout_register] returns on an idle timeout in a consistent state. *)
Lemma timeout_register_returns us2ticks CPU timeout time h a k c t :
  consistent k → cpus k !! CPU = Some c → timeouts k !! timeout = Some t →
  cpu t = None →
  ∃ k', timeout_register us2ticks CPU timeout time h a k = Ok k'.
Proof.
  intros Hk Hc Ht Hidle. unfold timeout_register, deref.
  rewrite Hc, Ht. simpl. rewrite Hidle.
  edestruct insertion_scan_total as [prev ->]; [|simpl; eauto].
  apply Forall_forall. intros p Hp. simpl.
  destruct (linked_owned k Hk CPU c p Hc Hp) as (tp & Htp & _).
  apply lookup_insert_is_Some'. eauto.
Qed.

(** C2.  Whatever sequence of [timeout_register] and [timeout_unregister]
    calls is run from a booted machine (all active lists empty, all
    timeouts idle), once the calls have completed every processor's active
    list holds existing timeouts only and is in ascending order of
    deadline.  A prefix of a sequence is a sequence, so this holds after
    each call. *)
Theorem timeout_lists_sorted us2ticks calls k0 k :
  booted k0 →
  do_calls us2ticks calls k0 = Ok k →
  ∀ c cs, cpus k !! c = Some cs →
    Forall (λ p, is_Some (timeouts k !! p)) (timeout_active_list cs) ∧
    Sorted Z.le (deadlines k (timeout_active_list cs)).
Proof.
  intros Hboot Hrun c cs Hc.
  assert (Hk : consistent k)
    by (eapply do_calls_consistent; [apply booted_consistent|]; eauto).
  split.
  - apply Forall_forall. intros p Hp.
    destruct (linked_owned k Hk c cs p Hc Hp) as (t & -> & _). eauto.
  - apply StronglySorted_Sorted. exact (lists_sorted k Hk c cs Hc).
Qed.

(** The lists after [list_remove]: the node is in none of them, every
    other node is where it was. *)
Lemma list_remove_linked (p : nat) (k : kernel) (c q : nat) :
  linked_in (timeout_reinitialize p (list_remove p k)) c q
  ↔ q ≠ p ∧ linked_in k c q.
Proof.
  unfold linked_in, timeout_reinitialize, set_timeout, list_remove. simpl.
  rewrite lookup_fmap. destruct (cpus k !! c) as [cs|]; simpl; [|tauto].
  rewrite list_elem_of_filter. tauto.
Qed.

(** C3.  In a consistent state [timeout_unregister] returns, and it
    returns [true] exactly when the timeout has an owning processor at the
    time of the call; in particular it returns [false] for a timeout that is
    not registered.  A timeout with an owner is, when the lists are well
    linked, in the active list of that owner.  After a [true] result the
    timeout is removed: it is in the active list of no processor, while
    every other timeout is in the lists it was in; and a second call right
    after returns [false] and changes nothing. *)
Theorem timeout_unregister_result timeout k t :
  consistent k → timeouts k !! timeout = Some t →
  ∃ b k', timeout_unregister timeout k = Ok (b, k') ∧
          (b = true ↔ is_Some (cpu t)) ∧
          (well_linked k → b = true →
           ∃ owner, cpu t = Some owner ∧ linked_in k owner timeout) ∧
          (b = true →
           (∀ c, ¬ linked_in k' c timeout) ∧
           (∀ c q, q ≠ timeout → linked_in k' c q ↔ linked_in k c q) ∧
           timeout_unregister timeout k' = Ok (false, k')).
Proof.
  intros Hk Ht. unfold timeout_unregister at 1. unfold deref. rewrite Ht. simpl.
  destruct (cpu t) as [owner|] eqn:Hcpu.
  - destruct (owner_exists k Hk timeout t owner Ht Hcpu) as [c Hc].
    rewrite Hc. simpl.
    assert (Hnext : ∃ x, match list_next timeout (timeout_active_list c) with
                         | Some tmp => match timeouts k !! tmp with
                                       | Some x => Ok x
                                       | None => BadPointer
                                       end
                         | None => Ok t
                         end = Ok x).
    { destruct (list_next timeout (timeout_active_list c)) as [tmp|] eqn:Hn; [|eauto].
      apply list_next_elem_of in Hn.
      destruct (linked_owned k Hk owner c tmp Hc Hn) as (x & -> & _). eauto. }
    destruct Hnext as [x ->]. simpl.
    eexists true, _. split; [reflexivity|]. split; [split; eauto|].
    split.
    { intros (_ & _ & Hlinks) _. exists owner. split; [reflexivity|].
      specialize (Hlinks timeout t Ht). unfold owner_links in Hlinks.
      now rewrite Hcpu in Hlinks. }
    intros _. split; [|split].
    + intros c0 Hl. apply list_remove_linked in Hl. tauto.
    + intros c0 q Hq. rewrite list_remove_linked. tauto.
    + unfold timeout_unregister, deref, timeout_reinitialize, set_timeout.
      simpl. rewrite lookup_insert_eq. reflexivity.
  - exists false, k. split; [reflexivity|].
    split; [split; [discriminate|intros [? [=]]]|].
    split; [intros _|]; discriminate.
Qed.

(** C4.  [timeout_register] ends in the panic
    ["Unexpected: timeout->cpu != 0."] when the timeout already has an
    owning processor, and never ends in a panic when the owner field is
    [NULL]. *)
Theorem timeout_register_double us2ticks CPU timeout time h a k c t :
  cpus k !! CPU = Some c → timeouts k !! timeout = Some t →
  (is_Some (cpu t) →
   timeout_register us2ticks CPU timeout time h a k
     = Panic "Unexpected: timeout->cpu != 0.") ∧
  (cpu t = None →
   ∀ msg, timeout_register us2ticks CPU timeout time h a k ≠ Panic msg).
Proof.
  intros Hc Ht. unfold timeout_register, deref. rewrite Hc, Ht. simpl. split.
  - intros [owner ->]. reflexivity.
  - intros -> msg.
    match goal with
    | |- context [insertion_scan ?ts ?d ?l ?cur ?prev] =>
        pose proof (insertion_scan_no_panic ts d l cur prev msg) as Hscan;
        destruct (insertion_scan ts d l cur prev)
    end; simpl; congruence.
Qed.

(** C5.  [timeout_register] on an idle timeout returns and leaves the
    timeout with the calling processor as owner, the deadline
    [current_clock_tick + us2ticks(time)] (a [uint64_t] sum: exactly the
    sum whenever that fits 64 bits), and the handler and argument that
    were passed. *)
Theorem timeout_register_fields us2ticks CPU timeout time h a k c t :
  consistent k → cpus k !! CPU = Some c → timeouts k !! timeout = Some t →
  cpu t = None →
  ∃ k' t',
    timeout_register us2ticks CPU timeout time h a k = Ok k' ∧
    timeouts k' !! timeout = Some t' ∧
    cpu t' = Some CPU ∧
    deadline t' = wrap 64 (current_clock_tick c + us2ticks time) ∧
    (0 <= current_clock_tick c + us2ticks time < 2 ^ 64 →
     deadline t' = current_clock_tick c + us2ticks time) ∧
    handler t' = h ∧ arg t' = a.
Proof.
  intros Hk Hc Ht Hidle.
  destruct (timeout_register_returns us2ticks CPU timeout time h a k c t)
    as [k' Hreg]; auto.
  exists k', (registered us2ticks CPU c time h a). split; [exact Hreg|].
  apply timeout_register_Ok in Hreg
    as (c1 & t1 & n & Hc1 & _ & _ & _ & _ & _ & ->).
  assert (c1 = c) as -> by congruence.
  simpl. rewrite lookup_insert_eq. repeat split; auto.
  intros Hfit. now apply wrap_small.
Qed.

(** C6.  [timeout_register] on an idle timeout splits the active list of
    the calling processor in two and links the timeout in between: every
    entry before it has a deadline no later than the new one, every entry
    behind it a strictly later one.  So the timeout sits right before the
    first entry with a strictly later deadline (at the tail when there is
    none), behind every entry registered earlier for the same deadline. *)
Theorem timeout_register_position us2ticks CPU timeout time h a k c t :
  consistent k → cpus k !! CPU = Some c → timeouts k !! timeout = Some t →
  cpu t = None →
  ∃ k' c' pre post,
    timeout_register us2ticks CPU timeout time h a k = Ok k' ∧
    cpus k' !! CPU = Some c' ∧
    timeout_active_list c = pre ++ post ∧
    timeout_active_list c' = pre ++ timeout :: post ∧
    Forall (λ p, deadline_of k p <= deadline_of k' timeout) pre ∧
    Forall (λ p, deadline_of k' timeout < deadline_of k p) post.
Proof.
  intros Hk Hc Ht Hidle.
  destruct (timeout_register_returns us2ticks CPU timeout time h a k c t)
    as [k' Hreg]; auto.
  pose proof Hreg as Hinv.
  apply timeout_register_Ok in Hinv
    as (c1 & t1 & n & Hc1 & _ & _ & Hn & Hpre & Hstop & ->).
  assert (c1 = c) as -> by congruence.
  set (t' := registered us2ticks CPU c time h a) in *.
  set (l := timeout_active_list c) in *.
  assert (Hfresh : timeout ∉ l) by (eapply idle_not_linked; eauto).
  assert (Hold : ∀ p tp, p ∈ l → <[timeout := t']> (timeouts k) !! p = Some tp →
                        deadline_of k p = deadline tp).
  { intros p tp Hp Htp. rewrite lookup_insert_ne in Htp by (intros <-; auto).
    unfold deadline_of. now rewrite Htp. }
  assert (Hnew : deadline_of {| cpus := <[CPU := {| current_clock_tick := current_clock_tick c;
                     timeout_active_list := inserted timeout n l |}]> (cpus k);
                   timeouts := <[timeout := t']> (timeouts k) |} timeout = deadline t').
  { unfold deadline_of. simpl. now rewrite lookup_insert_eq. }
  eexists _, _, (take n l), (drop n l). split; [exact Hreg|].
  split; [simpl; apply lookup_insert_eq|].
  split; [now rewrite take_drop|].
  split; [reflexivity|].
  rewrite Hnew. split.
  - apply Forall_forall. intros p Hp.
    rewrite Forall_forall in Hpre. destruct (Hpre p Hp) as (tp & Htp & Hle).
    rewrite (Hold p tp); auto.
    apply elem_of_take in Hp as (i & Hi & _). eapply list_elem_of_lookup_2; eauto.
  - pose proof (lists_sorted k Hk CPU c Hc) as Hs. fold l in Hs.
    unfold deadlines in Hs.
    rewrite <- (take_drop n l), fmap_app in Hs.
    apply StronglySorted_app_1_r in Hs.
    destruct (drop n l) as [|q post] eqn:Hdrop; [constructor|].
    assert (Hq : l !! n = Some q).
    { rewrite <- (Nat.add_0_r n), <- lookup_drop, Hdrop. reflexivity. }
    rewrite Hq in Hstop. destruct Hstop as (tq & Htq & Hlt).
    assert (Hdq : deadline t' < deadline_of k q).
    { rewrite (Hold q tq); auto. eapply list_elem_of_lookup_2; eauto. }
    rewrite fmap_cons in Hs. apply StronglySorted_inv in Hs as [_ Hall].
    constructor; [exact Hdq|].
    rewrite Forall_fmap in Hall. eapply Forall_impl; [exact Hall|].
    intros x Hx. unfold compose in Hx. lia.
Qed.

(** C9.  When [timeout_unregister] returns [false] the whole kernel state
    is the one before the call: the timeout (owner, deadline, handler,
    argument, linkage) and every active list are untouched. *)
Theorem timeout_unregister_false_unchanged timeout k k' :
  timeout_unregister timeout k = Ok (false, k') → k' = k.
Proof.
  intros Hun.
  apply timeout_unregister_Ok in Hun as (t & _ & [(_ & _ & ->)|(c & _ & _ & [=] & _)]).
  reflexivity.
Qed.


Lemma demo_calls_lists :
  (λ k, (λ c, (timeout_active_list c, deadlines k (timeout_active_list c)))
          <$> cpus k !! 0%nat) (demo_after demo_calls)
  = Some ([4; 5; 1; 3]%nat, [101; 104; 105; 105]).
Proof. vm_compute. reflexivity. Qed.

Lemma timeout_lists_sorted_witness :
  booted demo_boot ∧
  ∃ k, do_calls demo_us2ticks demo_calls demo_boot = Ok k ∧
       ∀ c cs, cpus k !! c = Some cs →
         Forall (λ p, is_Some (timeouts k !! p)) (timeout_active_list cs) ∧
         Sorted Z.le (deadlines k (timeout_active_list cs)).
Proof.
  assert (Hboot : booted demo_boot)
    by (split; refine (bool_decide_unpack _ _); vm_compute; exact I).
  split; [exact Hboot|].
  destruct (do_calls demo_us2ticks demo_calls demo_boot) as [k| |] eqn:Hrun;
    [|exfalso; vm_compute in Hrun; discriminate Hrun ..].
  exists k. split; [reflexivity|].
  exact (timeout_lists_sorted demo_us2ticks demo_calls demo_boot k Hboot Hrun).
Defined.

Lemma timeout_unregister_result_witness :
  consistent demo_busy ∧ timeouts demo_busy !! 2%nat = Some demo_timeout2 ∧
  well_linked demo_busy ∧
  ∃ b k', timeout_unregister 2 demo_busy = Ok (b, k') ∧
          (b = true ↔ is_Some (cpu demo_timeout2)) ∧
          (well_linked demo_busy → b = true →
           ∃ owner, cpu demo_timeout2 = Some owner ∧ linked_in demo_busy owner 2) ∧
          (b = true →
           (∀ c, ¬ linked_in k' c 2) ∧
           (∀ c q, q ≠ 2%nat → linked_in k' c q ↔ linked_in demo_busy c q) ∧
           timeout_unregister 2 k' = Ok (false, k')).
Proof.
  assert (Hk : consistent demo_busy)
    by (refine (bool_decide_unpack _ _); vm_compute; exact I).
  assert (Ht : timeouts demo_busy !! 2%nat = Some demo_timeout2)
    by (vm_compute; reflexivity).
  assert (Hl : well_linked demo_busy)
    by (refine (bool_decide_unpack _ _); vm_compute; exact I).
  split; [exact Hk|]. split; [exact Ht|]. split; [exact Hl|].
  exact (timeout_unregister_result 2 demo_busy demo_timeout2 Hk Ht).
Defined.

Lemma timeout_register_double_witness :
  timeout_register demo_us2ticks 0 2 500 None None demo_busy
    = Panic "Unexpected: timeout->cpu != 0." ∧
  ∀ msg, timeout_register demo_us2ticks 0 3 500 None None demo_busy ≠ Panic msg.
Proof.
  assert (Hc : cpus demo_busy !! 0%nat = Some demo_cpu0) by (vm_compute; reflexivity).
  assert (Ht2 : timeouts demo_busy !! 2%nat = Some demo_timeout2)
    by (vm_compute; reflexivity).
  assert (Ht3 : timeouts demo_busy !! 3%nat = Some reinitialized)
    by (vm_compute; reflexivity).
  split.
  - exact (proj1 (timeout_register_double demo_us2ticks 0 2 500 None None
                    demo_busy demo_cpu0 demo_timeout2 Hc Ht2)
             (ex_intro _ 0%nat eq_refl)).
  - exact (proj2 (timeout_register_double demo_us2ticks 0 3 500 None None
                    demo_busy demo_cpu0 reinitialized Hc Ht3) eq_refl).
Defined.

Lemma timeout_register_fields_witness :
  consistent demo_busy ∧
  ∃ k' t',
    timeout_register demo_us2ticks 0 3 500 (Some 9%nat) (Some 4%nat) demo_busy = Ok k' ∧
    timeouts k' !! 3%nat = Some t' ∧
    cpu t' = Some 0%nat ∧
    deadline t' = wrap 64 (current_clock_tick demo_cpu0 + demo_us2ticks 500) ∧
    (0 <= current_clock_tick demo_cpu0 + demo_us2ticks 500 < 2 ^ 64 →
     deadline t' = current_clock_tick demo_cpu0 + demo_us2ticks 500) ∧
    handler t' = Some 9%nat ∧ arg t' = Some 4%nat.
Proof.
  assert (Hk : consistent demo_busy)
    by (refine (bool_decide_unpack _ _); vm_compute; exact I).
  assert (Hc : cpus demo_busy !! 0%nat = Some demo_cpu0) by (vm_compute; reflexivity).
  assert (Ht3 : timeouts demo_busy !! 3%nat = Some reinitialized)
    by (vm_compute; reflexivity).
  split; [exact Hk|].
  exact (timeout_register_fields demo_us2ticks 0 3 500 (Some 9%nat) (Some 4%nat)
           demo_busy demo_cpu0 reinitialized Hk Hc Ht3 eq_refl).
Defined.

(** Timeout 3 registered for tick 103, where timeout 2 is already due:
    it goes behind timeout 2 and before timeout 1 (due at 105). *)
Lemma demo_equal_deadline :
  (λ k, timeout_active_list <$> cpus k !! 0%nat)
    <$> (match timeout_register demo_us2ticks 0 3 30 None None demo_busy with
         | Ok k => Some k
         | _ => None
         end)
  = Some (Some [2; 3; 1]%nat).
Proof. vm_compute. reflexivity. Qed.

Lemma timeout_register_position_witness :
  consistent demo_busy ∧
  ∃ k' c' pre post,
    timeout_register demo_us2ticks 0 3 30 None None demo_busy = Ok k' ∧
    cpus k' !! 0%nat = Some c' ∧
    timeout_active_list demo_cpu0 = pre ++ post ∧
    timeout_active_list c' = pre ++ 3%nat :: post ∧
    Forall (λ p, deadline_of demo_busy p <= deadline_of k' 3%nat) pre ∧
    Forall (λ p, deadline_of k' 3%nat < deadline_of demo_busy p) post.
Proof.
  assert (Hk : consistent demo_busy)
    by (refine (bool_decide_unpack _ _); vm_compute; exact I).
  assert (Hc : cpus demo_busy !! 0%nat = Some demo_cpu0) by (vm_compute; reflexivity).
  assert (Ht3 : timeouts demo_busy !! 3%nat = Some reinitialized)
    by (vm_compute; reflexivity).
  split; [exact Hk|].
  exact (timeout_register_position demo_us2ticks 0 3 30 None None
           demo_busy demo_cpu0 reinitialized Hk Hc Ht3 eq_refl).
Defined.

Lemma timeout_unregister_false_unchanged_witness :
  timeout_unregister 3 demo_busy = Ok (false, demo_busy) ∧ demo_busy = demo_busy.
Proof.
  assert (Hun : timeout_unregister 3 demo_busy = Ok (false, demo_busy))
    by (vm_compute; reflexivity).
  split; [exact Hun|].
  exact (timeout_unregister_false_unchanged 3 demo_busy demo_busy Hun).
Defined.

End TimeoutFacts.

Module IrqFacts.
Import Irq.

Section WithHardware.

Context {H : Type} `{Hardware H}.

(** Every command that does not end the run moves to a later command. *)
Lemma exec_cmd_forward (c : irq_cmd_t) (m m' : machine H) :
  exec_cmd c m = Next m' → (pc m < pc m')%nat.
Proof.
  unfold exec_cmd.
  destruct (operation_of (cmd c)) as [sp n|sp n|sp n| | | |].
  - destruct (hw_read sp n (addr c) (hw m)) as [v h]. intros [= <-]. simpl. lia.
  - intros [= <-]. simpl. lia.
  - intros [= <-]. simpl. lia.
  - intros [= <-]. simpl. lia.
  - destruct (reg (scratch m) (srcarg c) =? 0); intros [= <-]; simpl; lia.
  - discriminate.
  - discriminate.
Qed.

(** The commands a run executes are in the program, at or behind the
    starting position, each one later than the one before. *)
Lemma run_executed (fuel : nat) (code : irq_code_t) (m : machine H) (r : run_result H) :
  run fuel code m = Some r →
  Forall (λ i, (pc m <= i < cmdcount code)%nat) (executed r) ∧
  StronglySorted lt (executed r).
Proof.
  revert m r. induction fuel as [|fuel IH]; intros m r; simpl.
  - destruct (cmds code !! pc m); [discriminate|].
    intros [= <-]. simpl. split; constructor.
  - destruct (cmds code !! pc m) as [c|] eqn:Hc.
    + assert (Hpc : (pc m < cmdcount code)%nat) by (eapply lookup_lt_Some; eauto).
      destruct (exec_cmd c m) as [m'|o m'] eqn:Hexec.
      * apply exec_cmd_forward in Hexec.
        destruct (run fuel code m') as [r'|] eqn:Hrun; [|discriminate].
        intros [= <-]. simpl.
        destruct (IH m' r' Hrun) as [Hin Hsorted]. split.
        -- constructor; [lia|]. eapply Forall_impl; [exact Hin|].
           simpl. intros; lia.
        -- constructor; [exact Hsorted|]. eapply Forall_impl; [exact Hin|].
           simpl. intros; lia.
      * intros [= <-]. simpl. split.
        -- repeat constructor; lia.
        -- repeat constructor.
    + intros [= <-]. simpl. split; constructor.
Qed.

(** A run never needs more fuel than there are commands left. *)
Lemma run_returns (fuel : nat) (code : irq_code_t) (m : machine H) :
  (cmdcount code - pc m <= fuel)%nat →
  ∃ r, run fuel code m = Some r ∧ (length (executed r) <= cmdcount code - pc m)%nat.
Proof.
  revert m. induction fuel as [|fuel IH]; intros m Hfuel; simpl.
  - destruct (cmds code !! pc m) as [c|] eqn:Hc.
    + apply lookup_lt_Some in Hc. unfold cmdcount in Hfuel. lia.
    + eexists. split; [reflexivity|]. simpl. lia.
  - destruct (cmds code !! pc m) as [c|] eqn:Hc.
    + assert (Hpc : (pc m < cmdcount code)%nat) by (eapply lookup_lt_Some; eauto).
      destruct (exec_cmd c m) as [m'|o m'] eqn:Hexec.
      * apply exec_cmd_forward in Hexec.
        destruct (IH m') as (r' & -> & Hlen); [lia|].
        eexists. split; [reflexivity|]. simpl. lia.
      * eexists. split; [reflexivity|]. simpl. lia.
    + eexists. split; [reflexivity|]. simpl. lia.
Qed.

(** C7.  No command moves the interpreter backwards or leaves it in place:
    a command that does not end the run continues at a strictly later
    index.  So a run over a program of [n] commands returns with the fuel
    [n], executes at most [n] commands, each of them a command of the
    program, at strictly increasing indices. *)
Theorem interpreter_bounded (code : irq_code_t) :
  (∀ (c : irq_cmd_t) (m m' : machine H),
     exec_cmd c m = Next m' → (pc m < pc m')%nat) ∧
  (∀ (s : list Z) (h : H),
     ∃ r, interpret code s h = Some r ∧
          (length (executed r) <= cmdcount code)%nat ∧
          StronglySorted lt (executed r) ∧
          Forall (λ i, (i < cmdcount code)%nat) (executed r)).
Proof.
  split; [apply exec_cmd_forward|].
  intros s h. unfold interpret.
  destruct (run_returns (cmdcount code) code {| pc := 0; scratch := s; hw := h |})
    as (r & Hrun & Hlen); [simpl; lia|].
  exists r. split; [exact Hrun|]. simpl in Hlen. split; [lia|].
  destruct (run_executed _ _ _ _ Hrun) as [Hin Hsorted].
  split; [exact Hsorted|].
  eapply Forall_impl; [exact Hin|]. simpl. intros; lia.
Qed.

Lemma run_step (fuel : nat) (code : irq_code_t) (m : machine H) (c : irq_cmd_t) :
  cmds code !! pc m = Some c →
  run (S fuel) code m
  = match exec_cmd c m with
    | Next m' => after (pc m) <$> run fuel code m'
    | Done o m' => Some {| outcome := Some o; final := m'; executed := [pc m] |}
    end.
Proof. intros Hc. simpl. now rewrite Hc. Qed.

Lemma exec_predicate (c : irq_cmd_t) (m : machine H) :
  cmd c = CMD_PREDICATE →
  exec_cmd c m
  = Next {| pc := if reg (scratch m) (srcarg c) =? 0
                  then S (pc m) + Z.to_nat (value c) else S (pc m);
            scratch := scratch m; hw := hw m |}.
Proof.
  intros Hcmd. unfold exec_cmd. rewrite Hcmd. simpl.
  now destruct (reg (scratch m) (srcarg c) =? 0).
Qed.

(** C1.  At a position holding [CMD_PREDICATE] with source register
    [srcarg] and count [value]: when [scratch[srcarg]] is zero the run
    goes on at the command [value] places behind the next one, with
    registers and device untouched, and none of the [value] commands in
    between is executed; when it is not zero (whatever the value) the run
    goes on at the next command. *)
Theorem predicate_semantics (code : irq_code_t) (m : machine H) (c : irq_cmd_t)
    (x : Z) (fuel : nat) :
  cmds code !! pc m = Some c →
  cmd c = CMD_PREDICATE →
  scratch m !! srcarg c = Some x →
  let skip := Z.to_nat (value c) in
  (x = 0 →
   run (S fuel) code m
     = after (pc m) <$> run fuel code {| pc := S (pc m) + skip;
                                         scratch := scratch m; hw := hw m |} ∧
   ∀ r, run (S fuel) code m = Some r →
        ∀ i, (pc m < i <= pc m + skip)%nat → i ∉ executed r) ∧
  (x ≠ 0 →
   run (S fuel) code m
     = after (pc m) <$> run fuel code {| pc := S (pc m);
                                         scratch := scratch m; hw := hw m |}).
Proof.
  intros Hc Hcmd Hx skip.
  assert (Hreg : reg (scratch m) (srcarg c) = x) by (unfold reg; now rewrite Hx).
  pose proof (run_step fuel code m c Hc) as Hstep.
  rewrite (exec_predicate c m Hcmd), Hreg in Hstep. fold skip in Hstep.
  split.
  - intros ->. change (0 =? 0) with true in Hstep. cbv iota in Hstep.
    split; [exact Hstep|].
    intros r Hr i Hi Hin. rewrite Hstep in Hr.
    destruct (run fuel code _) as [r'|] eqn:Hrun; [|discriminate].
    inversion Hr; subst r; clear Hr. simpl in Hin.
    apply elem_of_cons in Hin as [->|Hin]; [lia|].
    destruct (run_executed _ _ _ _ Hrun) as [Hfrom _].
    rewrite Forall_forall in Hfrom. specialize (Hfrom i Hin). simpl in Hfrom.
    lia.
  - intros Hne. destruct (Z.eqb_spec x 0) as [|_]; [contradiction|]. exact Hstep.
Qed.

(** C8, as amended.  On the predicate test program, when the read of the
    status register yields [0x02]: [r0] and [r1] become [2], the predicate
    is true, the next command (the decline) is executed and the outcome is
    [IRQ_DECLINE]; the accept is not reached. *)
Theorem predicate_test_declines (isr : Z) (s : list Z) (h h' : H) :
  (2 <= length s)%nat →
  hw_read PIO 1 isr h = (0x02, h') →
  interpret (predicate_test_code isr) s h
    = Some {| outcome := Some IRQ_DECLINE;
              final := {| pc := 3;
                          scratch := <[1%nat := 2]> (<[0%nat := 2]> s);
                          hw := h' |};
              executed := [0; 1; 2; 3]%nat |}.
Proof.
  intros Hlen Hread.
  destruct s as [|r0 [|r1 s]]; simpl in Hlen; try lia.
  unfold interpret, predicate_test_code, cmdcount. simpl.
  unfold exec_cmd at 1. simpl. rewrite Hread.
  change (wrap (width 1) 2) with 2. simpl.
  reflexivity.
Qed.

(** The same program on a status register that shows none of the masked
    causes: the decline is skipped and the run ends in the accept. *)
Lemma predicate_test_accepts (isr : Z) (s : list Z) (h h' : H) :
  (2 <= length s)%nat →
  hw_read PIO 1 isr h = (0x00, h') →
  interpret (predicate_test_code isr) s h
    = Some {| outcome := Some IRQ_ACCEPT;
              final := {| pc := 4;
                          scratch := <[1%nat := 0]> (<[0%nat := 0]> s);
                          hw := h' |};
              executed := [0; 1; 2; 4]%nat |}.
Proof.
  intros Hlen Hread.
  destruct s as [|r0 [|r1 s]]; simpl in Hlen; try lia.
  unfold interpret, predicate_test_code, cmdcount. simpl.
  unfold exec_cmd at 1. simpl. rewrite Hread.
  change (wrap (width 1) 0) with 0. simpl.
  reflexivity.
Qed.

End WithHardware.

(** C8, as stated, fails: with [0x02] in the status register the run of
    the predicate test program is not accepted. *)
Lemma predicate_test_not_accepted :
  ¬ ∃ r, interpret (predicate_test_code 16) [0; 0; 0; 0; 0; 0]
           (({[ 16 := 0x02 ]} : gmap Z Z), (∅ : gmap Z Z)) = Some r ∧
         outcome r = Some IRQ_ACCEPT ∧
         scratch (final r) !! 0%nat = Some 0x02.
Proof.
  intros (r & Hr & Ho & _). vm_compute in Hr.
  inversion Hr; subst r; clear Hr. discriminate Ho.
Qed.

Lemma predicate_test_declines_witness :
  (2 <= length [0; 0; 0; 0; 0; 0])%nat ∧
  hw_read PIO 1 16 (({[ 16 := 0x02 ]} : gmap Z Z), (∅ : gmap Z Z))
    = (0x02, (({[ 16 := 0x02 ]} : gmap Z Z), (∅ : gmap Z Z))) ∧
  interpret (predicate_test_code 16) [0; 0; 0; 0; 0; 0]
      (({[ 16 := 0x02 ]} : gmap Z Z), (∅ : gmap Z Z))
    = Some {| outcome := Some IRQ_DECLINE;
              final := {| pc := 3;
                          scratch := [2; 2; 0; 0; 0; 0];
                          hw := (({[ 16 := 0x02 ]} : gmap Z Z), (∅ : gmap Z Z)) |};
              executed := [0; 1; 2; 3]%nat |}.
Proof.
  split; [simpl; lia|]. split; [reflexivity|].
  apply (predicate_test_declines 16 [0; 0; 0; 0; 0; 0]); [simpl; lia|reflexivity].
Defined.

(** The NE2000 top half on the register bank: with a masked cause pending
    the four predicated commands run and the interrupt is accepted, with the
    status in [scratch[2]]; with none the four commands are skipped and the
    run ends without accepting. *)
Lemma ne2k_accepts :
  (λ r, (outcome r, scratch (final r), executed r)) <$>
    interpret (ne2k_code 16 17 18 0x7f) [0; 0; 0; 0; 0; 0]
      (({[ 16 := 0x82 ]} : gmap Z Z), (∅ : gmap Z Z))
  = Some (Some IRQ_ACCEPT, [0; 0; 0x82; 0; 0; 0], [0; 1; 2; 3; 4; 5; 6]%nat).
Proof. vm_compute. reflexivity. Qed.

Lemma ne2k_not_ours :
  (λ r, (outcome r, scratch (final r), executed r)) <$>
    interpret (ne2k_code 16 17 18 0x7f) [0; 0; 0; 0; 0; 0]
      (({[ 16 := 0x80 ]} : gmap Z Z), (∅ : gmap Z Z))
  = Some (None, [0; 0; 0x80; 0; 0; 0], [0; 1; 2]%nat).
Proof. vm_compute. reflexivity. Qed.

Lemma interpreter_bounded_witness :
  ∃ r, interpret (ne2k_code 16 17 18 0x7f) [0; 0; 0; 0; 0; 0]
         (({[ 16 := 0x82 ]} : gmap Z Z), (∅ : gmap Z Z)) = Some r ∧
       (length (executed r) <= 7)%nat ∧
       StronglySorted lt (executed r) ∧
       Forall (λ i, (i < 7)%nat) (executed r).
Proof.
  exact (proj2 (interpreter_bounded (ne2k_code 16 17 18 0x7f)) [0; 0; 0; 0; 0; 0]
           (({[ 16 := 0x82 ]} : gmap Z Z), (∅ : gmap Z Z))).
Defined.

Lemma predicate_semantics_witness :
  let m := {| pc := 2; scratch := [0; 0; 0x80; 0; 0; 0];
              hw := (({[ 16 := 0x80 ]} : gmap Z Z), (∅ : gmap Z Z)) |} in
  run 5 (ne2k_code 16 17 18 0x7f) m
    = after 2 <$> run 4 (ne2k_code 16 17 18 0x7f)
                    {| pc := 7; scratch := scratch m; hw := hw m |} ∧
  ∀ r, run 5 (ne2k_code 16 17 18 0x7f) m = Some r →
       ∀ i, (2 < i <= 6)%nat → i ∉ executed r.
Proof.
  intros m.
  exact (proj1 (predicate_semantics (ne2k_code 16 17 18 0x7f) m
                  {| cmd := CMD_PREDICATE; addr := 0; value := 4;
                     srcarg := 3; dstarg := 0 |} 0 4 eq_refl eq_refl eq_refl) eq_refl).
Defined.

End IrqFacts.

(** ** Ethernet addresses: truncation, framing, order and text *)

Module EthAddrMore.
Import EthAddr EthAddrFacts.

(** *** Fields *)

Lemma field_div (A k : Z) :
  0 <= k → Z.land (Z.shiftr A k) 255 = (A / 2 ^ k) mod 256.
Proof.
  intros Hk. change 255 with (Z.ones 8).
  rewrite Z.land_ones by lia. now rewrite Z.shiftr_div_pow2 by lia.
Qed.

Lemma field_range (x : Z) : 0 <= Z.land x 255 < 256.
Proof.
  change 255 with (Z.ones 8). rewrite Z.land_ones by lia.
  apply Z.mod_pos_bound. lia.
Qed.

Lemma unsigned_of_field (x : Z) :
  byte.unsigned (byte.of_Z (Z.land x 255)) = Z.land x 255.
Proof.
  rewrite byte.unsigned_of_Z. unfold byte.wrap.
  apply Z.mod_small. pose proof (field_range x). lia.
Qed.

Lemma field_mod48 (A k : Z) :
  0 <= k <= 40 →
  Z.land (Z.shiftr (A mod 2 ^ 48) k) 255 = Z.land (Z.shiftr A k) 255.
Proof.
  intros Hk. apply Z.bits_inj'. intros n Hn.
  rewrite !Z.land_spec, !Z.shiftr_spec, testbit_255 by lia.
  destruct (Z.ltb_spec n 8); [|now rewrite !andb_false_r].
  now rewrite Z.mod_pow2_bits_low by lia.
Qed.

Lemma pack_range b0 b1 b2 b3 b4 b5 : 0 <= pack b0 b1 b2 b3 b4 b5 < 2 ^ 48.
Proof.
  assert (Hmod : pack b0 b1 b2 b3 b4 b5 mod 2 ^ 48 = pack b0 b1 b2 b3 b4 b5).
  { apply Z.bits_inj'. intros n Hn.
    destruct (Z.lt_ge_cases n 48) as [Hlo|Hhi].
    - now rewrite Z.mod_pow2_bits_low by lia.
    - rewrite Z.mod_pow2_bits_high by lia. unfold pack.
      rewrite !Z.lor_spec, !Z.shiftl_spec, Z.bits_0 by lia.
      now rewrite !testbit_unsigned_high by lia. }
  rewrite <- Hmod. apply Z.mod_pos_bound. lia.
Qed.

(** The first six bytes decide what [eth_addr_decode] returns. *)
Lemma decode_six_app b0 b1 b2 b3 b4 b5 rest :
  eth_addr_decode (b0 :: b1 :: b2 :: b3 :: b4 :: b5 :: rest)
  = Some {| a := pack b0 b1 b2 b3 b4 b5 |}.
Proof.
  unfold eth_addr_decode, ETH_ADDR_SIZE.
  cbn [decode_loop lookup list_lookup].
  rewrite !shifted_byte_fits by (unfold ETH_ADDR_SIZE; lia).
  reflexivity.
Qed.

Lemma encode_six_app (A : Z) o0 o1 o2 o3 o4 o5 rest :
  eth_addr_encode {| a := A |} (o0 :: o1 :: o2 :: o3 :: o4 :: o5 :: rest)
  = Some (byte.of_Z (Z.land (Z.shiftr A 40) 255) ::
          byte.of_Z (Z.land (Z.shiftr A 32) 255) ::
          byte.of_Z (Z.land (Z.shiftr A 24) 255) ::
          byte.of_Z (Z.land (Z.shiftr A 16) 255) ::
          byte.of_Z (Z.land (Z.shiftr A 8) 255) ::
          byte.of_Z (Z.land (Z.shiftr A 0) 255) :: rest).
Proof.
  unfold eth_addr_encode.
  destruct (decide _) as [_|Hshort]; [reflexivity|].
  exfalso. apply Hshort. unfold ETH_ADDR_SIZE. simpl. lia.
Qed.

Lemma at_least_six (l : list byte) :
  (ETH_ADDR_SIZE <= length l)%nat →
  ∃ b0 b1 b2 b3 b4 b5 rest, l = b0 :: b1 :: b2 :: b3 :: b4 :: b5 :: rest.
Proof.
  unfold ETH_ADDR_SIZE. intros Hl.
  do 6 (destruct l as [|? l]; [simpl in Hl; lia|]). eauto 8.
Qed.

Lemma decode_Some_length (l : list byte) (addr : eth_addr_t) :
  eth_addr_decode l = Some addr → (ETH_ADDR_SIZE <= length l)%nat.
Proof.
  unfold eth_addr_decode, ETH_ADDR_SIZE. intros Hdec.
  do 6 (destruct l as [|? l]; [discriminate Hdec|]). simpl. lia.
Qed.

(** X8.  Only the low 48 bits of an address are encoded: for every
    address, decoding what [eth_addr_encode] wrote gives the address
    reduced modulo [2 ^ 48]. *)
Theorem eth_addr_encode_decode_trunc (addr : eth_addr_t) (out : list byte) :
  length out = ETH_ADDR_SIZE →
  ∃ b, eth_addr_encode addr out = Some b ∧
       eth_addr_decode b = Some {| a := a addr mod 2 ^ 48 |}.
Proof.
  intros Hout. destruct addr as [A].
  destruct (six_bytes out Hout) as (o0 & o1 & o2 & o3 & o4 & o5 & ->).
  eexists. split; [apply encode_six|].
  rewrite decode_six. simpl. do 2 f_equal.
  rewrite <- (field_mod48 A 40), <- (field_mod48 A 32), <- (field_mod48 A 24),
    <- (field_mod48 A 16), <- (field_mod48 A 8), <- (field_mod48 A 0) by lia.
  apply pack_fields_of. apply Z.mod_pos_bound. lia.
Qed.

(** X9.  Whatever buffer [eth_addr_decode] is given, the address it
    returns fits in 48 bits and depends on the first six bytes only. *)
Theorem eth_addr_decode_fits (buf : list byte) (addr : eth_addr_t) :
  eth_addr_decode buf = Some addr →
  0 <= a addr < 2 ^ 48 ∧
  eth_addr_decode (take ETH_ADDR_SIZE buf) = Some addr.
Proof.
  intros Hdec.
  destruct (at_least_six buf (decode_Some_length buf addr Hdec))
    as (b0 & b1 & b2 & b3 & b4 & b5 & rest & ->).
  rewrite decode_six_app in Hdec. inversion Hdec; subst addr; clear Hdec.
  split; [apply pack_range|].
  unfold ETH_ADDR_SIZE. cbn [take]. apply decode_six.
Qed.

(** X10.  [eth_addr_encode] writes six bytes and no more: the rest of
    the buffer stays as it was, and the six bytes do not depend on what
    the buffer held before. *)
Theorem eth_addr_encode_frame (addr : eth_addr_t) (buf : list byte) :
  (ETH_ADDR_SIZE <= length buf)%nat →
  ∃ b, length b = ETH_ADDR_SIZE ∧
       eth_addr_encode addr buf = Some (b ++ drop ETH_ADDR_SIZE buf) ∧
       ∀ buf', (ETH_ADDR_SIZE <= length buf')%nat →
               eth_addr_encode addr buf' = Some (b ++ drop ETH_ADDR_SIZE buf').
Proof.
  intros Hbuf. destruct addr as [A].
  destruct (at_least_six buf Hbuf) as (o0 & o1 & o2 & o3 & o4 & o5 & rest & ->).
  eexists [_; _; _; _; _; _]. split; [reflexivity|].
  split; [apply encode_six_app|].
  intros buf' Hbuf'.
  destruct (at_least_six buf' Hbuf') as (p0 & p1 & p2 & p3 & p4 & p5 & rest' & ->).
  apply encode_six_app.
Qed.

(** *** Order *)

(** X11.  [eth_addr_compare] is a three-way comparison: it returns [0]
    exactly for equal addresses (and [-1] or [1] otherwise), swapping the
    arguments negates the result, and "below" is transitive. *)
Theorem eth_addr_compare_order (x y z : eth_addr_t) :
  (eth_addr_compare x y = 0 ↔ x = y) ∧
  (eth_addr_compare x y = -1 ∨ eth_addr_compare x y = 0 ∨ eth_addr_compare x y = 1) ∧
  eth_addr_compare y x = - eth_addr_compare x y ∧
  (eth_addr_compare x y = -1 → eth_addr_compare y z = -1 →
   eth_addr_compare x z = -1).
Proof.
  destruct x as [A], y as [B], z as [C]. unfold eth_addr_compare. simpl.
  assert (Heq : {| a := A |} = {| a := B |} ↔ A = B)
    by (split; [now intros [= ->]|now intros ->]).
  rewrite Heq. clear Heq.
  destruct (Z.ltb_spec A B), (Z.eqb_spec A B), (Z.ltb_spec B A), (Z.eqb_spec B A),
    (Z.ltb_spec B C), (Z.eqb_spec B C), (Z.ltb_spec A C), (Z.eqb_spec A C);
    try lia;
    (split; [split; intros; lia|]);
    (split; [lia|]); (split; [lia|]); intros; lia.
Qed.

Lemma address_of_fields (A : Z) :
  0 <= A < 2 ^ 48 →
  A = Z.land (Z.shiftr A 40) 255 * 2 ^ 40 + Z.land (Z.shiftr A 32) 255 * 2 ^ 32
      + Z.land (Z.shiftr A 24) 255 * 2 ^ 24 + Z.land (Z.shiftr A 16) 255 * 2 ^ 16
      + Z.land (Z.shiftr A 8) 255 * 2 ^ 8 + Z.land (Z.shiftr A 0) 255.
Proof.
  intros HA. rewrite !field_div by lia.
  change (2 ^ 40) with 1099511627776. change (2 ^ 32) with 4294967296.
  change (2 ^ 24) with 16777216. change (2 ^ 16) with 65536.
  change (2 ^ 8) with 256. change (2 ^ 0) with 1.
  change (2 ^ 48) with 281474976710656 in HA.
  Z.div_mod_to_equations. lia.
Qed.

(** X12.  On addresses that fit 48 bits [eth_addr_compare] orders two
    addresses the way their encodings compare byte by byte, first byte
    first. *)
Theorem eth_addr_compare_bytes (x y : eth_addr_t) (out out' bx by' : list byte) :
  0 <= a x < 2 ^ 48 → 0 <= a y < 2 ^ 48 →
  length out = ETH_ADDR_SIZE → length out' = ETH_ADDR_SIZE →
  eth_addr_encode x out = Some bx →
  eth_addr_encode y out' = Some by' →
  eth_addr_compare x y = bytes_compare bx by'.
Proof.
  intros Hx Hy Hout Hout' Hbx Hby. destruct x as [A], y as [B]. simpl in Hx, Hy.
  destruct (six_bytes out Hout) as (o0 & o1 & o2 & o3 & o4 & o5 & ->).
  destruct (six_bytes out' Hout') as (p0 & p1 & p2 & p3 & p4 & p5 & ->).
  rewrite encode_six in Hbx, Hby.
  inversion Hbx; subst bx; clear Hbx. inversion Hby; subst by'; clear Hby.
  unfold eth_addr_compare. cbn [a bytes_compare].
  rewrite !unsigned_of_field.
  pose proof (address_of_fields A Hx) as HA.
  pose proof (address_of_fields B Hy) as HB.
  pose proof (field_range (Z.shiftr A 40)). pose proof (field_range (Z.shiftr B 40)).
  pose proof (field_range (Z.shiftr A 32)). pose proof (field_range (Z.shiftr B 32)).
  pose proof (field_range (Z.shiftr A 24)). pose proof (field_range (Z.shiftr B 24)).
  pose proof (field_range (Z.shiftr A 16)). pose proof (field_range (Z.shiftr B 16)).
  pose proof (field_range (Z.shiftr A 8)). pose proof (field_range (Z.shiftr B 8)).
  pose proof (field_range (Z.shiftr A 0)). pose proof (field_range (Z.shiftr B 0)).
  change (2 ^ 40) with 1099511627776 in HA, HB.
  change (2 ^ 32) with 4294967296 in HA, HB.
  change (2 ^ 24) with 16777216 in HA, HB. change (2 ^ 16) with 65536 in HA, HB.
  change (2 ^ 8) with 256 in HA, HB.
  repeat match goal with
  | |- context [?u <? ?v] => destruct (Z.ltb_spec u v)
  | |- context [?u =? ?v] => destruct (Z.eqb_spec u v)
  end; try reflexivity; lia.
Qed.

(** *** Text *)

Lemma hex_digit_not_zero (d : Z) : hex_digit d ≠ Byte.x00.
Proof.
  unfold hex_digit. generalize (Z.to_nat d). intros n.
  do 16 (destruct n as [|n]; [discriminate|]).
  destruct n; discriminate.
Qed.

Lemma hex_digit_not_colon (d : Z) : hex_digit d ≠ Byte.x3a.
Proof.
  unfold hex_digit. generalize (Z.to_nat d). intros n.
  do 16 (destruct n as [|n]; [discriminate|]).
  destruct n; discriminate.
Qed.

Lemma hex_char_inj (n m : nat) :
  (n < 16)%nat → (m < 16)%nat →
  nth n hex_chars Byte.x30 = nth m hex_chars Byte.x30 → n = m.
Proof.
  intros Hn Hm.
  do 16 (destruct n as [|n]; [do 16 (destruct m as [|m];
    [first [reflexivity | discriminate]|]); simpl in Hm; lia|]).
  simpl in Hn. lia.
Qed.

Lemma hex_digit_inj (d e : Z) :
  0 <= d < 16 → 0 <= e < 16 → hex_digit d = hex_digit e → d = e.
Proof.
  intros Hd He Heq. unfold hex_digit in Heq.
  apply hex_char_inj in Heq; lia.
Qed.

Lemma hex_pair_inj (b c : byte) : hex_pair b = hex_pair c → b = c.
Proof.
  unfold hex_pair. intros [= Hhi Hlo]. apply byte.unsigned_inj.
  pose proof (byte.unsigned_range b) as Hb.
  pose proof (byte.unsigned_range c) as Hc.
  change (2 ^ 8) with 256 in Hb, Hc.
  apply hex_digit_inj in Hhi; [|Z.div_mod_to_equations; lia ..].
  apply hex_digit_inj in Hlo; [|Z.div_mod_to_equations; lia ..].
  Z.div_mod_to_equations. lia.
Qed.

(** [%02x] of a value below 256: two digits. *)
Lemma fmt_02x_field (x : Z) :
  fmt_02x (Z.land x 255) = hex_pair (byte.of_Z (Z.land x 255)).
Proof.
  unfold hex_pair. rewrite unsigned_of_field.
  pose proof (field_range x) as Hr. generalize dependent (Z.land x 255).
  intros v Hv. unfold fmt_02x.
  rewrite wrap_small by (change (2 ^ 32) with 4294967296; lia).
  cbn [hex_digits].
  destruct (Z.ltb_spec v 16) as [Hlo|Hhi].
  - replace (v / 16) with 0 by (Z.div_mod_to_equations; lia).
    replace (v mod 16) with v by (Z.div_mod_to_equations; lia).
    reflexivity.
  - destruct (Z.ltb_spec (v / 16) 16) as [_|Hbig];
      [reflexivity|Z.div_mod_to_equations; lia].
Qed.

Lemma at_least_eighteen (l : list byte) :
  (18 <= length l)%nat →
  ∃ c0 c1 c2 c3 c4 c5 c6 c7 c8 c9 c10 c11 c12 c13 c14 c15 c16 c17 rest,
    l = c0 :: c1 :: c2 :: c3 :: c4 :: c5 :: c6 :: c7 :: c8 :: c9 :: c10 :: c11
          :: c12 :: c13 :: c14 :: c15 :: c16 :: c17 :: rest.
Proof.
  intros Hl.
  do 18 (destruct l as [|? l]; [simpl in Hl; lia|]).
  do 19 eexists. reflexivity.
Qed.

(** What [eth_addr_format] leaves in the array. *)
Lemma eth_addr_format_result (A : Z) (str : list byte) :
  (18 <= length str)%nat →
  eth_addr_format {| a := A |} str
  = Some (colon_hex [byte.of_Z (Z.land (Z.shiftr A 40) 255);
                     byte.of_Z (Z.land (Z.shiftr A 32) 255);
                     byte.of_Z (Z.land (Z.shiftr A 24) 255);
                     byte.of_Z (Z.land (Z.shiftr A 16) 255);
                     byte.of_Z (Z.land (Z.shiftr A 8) 255);
                     byte.of_Z (Z.land (Z.shiftr A 0) 255)]
          ++ Byte.x00 :: drop 18 str).
Proof.
  intros Hstr.
  destruct (at_least_eighteen str Hstr)
    as (c0 & c1 & c2 & c3 & c4 & c5 & c6 & c7 & c8 & c9 & c10 & c11 & c12
        & c13 & c14 & c15 & c16 & c17 & rest & ->).
  unfold eth_addr_format, ETH_ADDR_SIZE. cbn [a Nat.sub format_loop].
  change (40 - Z.of_nat 1 * 8) with 32. change (40 - Z.of_nat 2 * 8) with 24.
  change (40 - Z.of_nat 3 * 8) with 16. change (40 - Z.of_nat 4 * 8) with 8.
  change (40 - Z.of_nat 5 * 8) with 0. change 0xff with 255.
  rewrite !fmt_02x_field. unfold colon_hex, hex_pair.
  repeat match goal with
  | |- context [hex_digit ?d] => generalize (hex_digit d); intro
  end.
  vm_compute. reflexivity.
Qed.

(** X13.  [eth_addr_format] leaves the text [xx:xx:xx:xx:xx:xx] in the
    array: seventeen characters, none of them zero, then the terminating
    zero, then what the array held before.  The six [xx] are the two
    lower-case hexadecimal digits of the six bytes [eth_addr_encode]
    writes, in the same order. *)
Theorem eth_addr_format_text (addr : eth_addr_t) (str out : list byte) :
  (18 <= length str)%nat →
  length out = ETH_ADDR_SIZE →
  ∃ bs text,
    eth_addr_encode addr out = Some bs ∧
    text = colon_hex bs ∧
    eth_addr_format addr str = Some (text ++ Byte.x00 :: drop 18 str) ∧
    length text = 17%nat ∧
    Byte.x00 ∉ text.
Proof.
  intros Hstr Hout. destruct addr as [A].
  destruct (six_bytes out Hout) as (o0 & o1 & o2 & o3 & o4 & o5 & ->).
  eexists _, _. split; [apply encode_six|]. split; [reflexivity|].
  split; [now apply eth_addr_format_result|].
  split; [reflexivity|].
  cbn [colon_hex app]. unfold hex_pair. cbn [app].
  rewrite !elem_of_cons, elem_of_nil.
  intros Hin.
  repeat (destruct Hin as [Hin|Hin];
          [first [discriminate Hin
                 | symmetry in Hin; exact (hex_digit_not_zero _ Hin)]|]).
  exact Hin.
Qed.

Lemma colon_hex_six_inj b0 b1 b2 b3 b4 b5 c0 c1 c2 c3 c4 c5 :
  colon_hex [b0; b1; b2; b3; b4; b5] = colon_hex [c0; c1; c2; c3; c4; c5] →
  [b0; b1; b2; b3; b4; b5] = [c0; c1; c2; c3; c4; c5].
Proof.
  cbn [colon_hex]. unfold hex_pair. cbn [app].
  intros [= H0 H0' H1 H1' H2 H2' H3 H3' H4 H4' H5 H5'].
  rewrite (hex_pair_inj b0 c0), (hex_pair_inj b1 c1), (hex_pair_inj b2 c2),
    (hex_pair_inj b3 c3), (hex_pair_inj b4 c4), (hex_pair_inj b5 c5);
    unfold hex_pair; congruence.
Qed.

(** [eth_addr_format] needs room for eighteen characters. *)
Lemma eth_addr_format_length (A : Z) (str out : list byte) :
  eth_addr_format {| a := A |} str = Some out → (18 <= length str)%nat.
Proof.
  revert out. unfold eth_addr_format, ETH_ADDR_SIZE. cbn [a Nat.sub format_loop].
  change 0xff with 255. rewrite !fmt_02x_field. unfold hex_pair.
  repeat match goal with
  | |- context [hex_digit ?d] => generalize (hex_digit d); intro
  end.
  intros out Hf.
  destruct (decide (18 <= length str)%nat) as [|Hshort]; [assumption|].
  exfalso.
  do 18 (destruct str as [|? str]; [vm_compute in Hf; discriminate Hf|]).
  simpl in Hshort. lia.
Qed.

(** X14.  Different addresses have different texts: when
    [eth_addr_format] leaves the same seventeen characters for two
    addresses that fit 48 bits, the addresses are equal. *)
Theorem eth_addr_format_inj (x y : eth_addr_t) (str str' out out' : list byte) :
  0 <= a x < 2 ^ 48 → 0 <= a y < 2 ^ 48 →
  eth_addr_format x str = Some out →
  eth_addr_format y str' = Some out' →
  take 17 out = take 17 out' →
  x = y.
Proof.
  intros Hx Hy Hfx Hfy Heq. destruct x as [A], y as [B]. simpl in Hx, Hy.
  pose proof eth_addr_format_length as Hlen.
  rewrite (eth_addr_format_result A str (Hlen _ _ _ Hfx)) in Hfx.
  rewrite (eth_addr_format_result B str' (Hlen _ _ _ Hfy)) in Hfy.
  apply (inj Some) in Hfx. apply (inj Some) in Hfy. subst out out'.
  rewrite !take_app_length' in Heq by reflexivity.
  apply colon_hex_six_inj in Heq.
  injection Heq as H40 H32 H24 H16 H8 H0.
  f_equal.
  rewrite <- (pack_fields_of A Hx), <- (pack_fields_of B Hy).
  now rewrite H40, H32, H24, H16, H8, H0.
Qed.

(** *** Worked examples *)

Lemma eth_addr_encode_decode_trunc_witness :
  length (replicate 6 Byte.x00) = ETH_ADDR_SIZE ∧
  ∃ b, eth_addr_encode {| a := 0xabcd001b213c9dff |} (replicate 6 Byte.x00) = Some b ∧
       eth_addr_decode b = Some {| a := a {| a := 0xabcd001b213c9dff |} mod 2 ^ 48 |}.
Proof.
  split; [reflexivity|].
  exact (eth_addr_encode_decode_trunc {| a := 0xabcd001b213c9dff |}
           (replicate 6 Byte.x00) eq_refl).
Defined.

Lemma eth_addr_decode_fits_witness :
  eth_addr_decode [Byte.x00; Byte.x1b; Byte.x21; Byte.x3c; Byte.x9d; Byte.xff; Byte.x55]
    = Some {| a := 0x001b213c9dff |} ∧
  0 <= a {| a := 0x001b213c9dff |} < 2 ^ 48 ∧
  eth_addr_decode
    (take ETH_ADDR_SIZE
       [Byte.x00; Byte.x1b; Byte.x21; Byte.x3c; Byte.x9d; Byte.xff; Byte.x55])
    = Some {| a := 0x001b213c9dff |}.
Proof.
  assert (Hdec : eth_addr_decode
                   [Byte.x00; Byte.x1b; Byte.x21; Byte.x3c; Byte.x9d; Byte.xff; Byte.x55]
                 = Some {| a := 0x001b213c9dff |}) by reflexivity.
  split; [exact Hdec|].
  exact (eth_addr_decode_fits _ _ Hdec).
Defined.

Lemma eth_addr_encode_frame_witness :
  (ETH_ADDR_SIZE <= length (replicate 8 Byte.x55))%nat ∧
  ∃ b, length b = ETH_ADDR_SIZE ∧
       eth_addr_encode eth_addr_broadcast (replicate 8 Byte.x55)
         = Some (b ++ drop ETH_ADDR_SIZE (replicate 8 Byte.x55)) ∧
       ∀ buf', (ETH_ADDR_SIZE <= length buf')%nat →
               eth_addr_encode eth_addr_broadcast buf'
                 = Some (b ++ drop ETH_ADDR_SIZE buf').
Proof.
  assert (Hlen : (ETH_ADDR_SIZE <= length (replicate 8 Byte.x55))%nat)
    by (unfold ETH_ADDR_SIZE; simpl; lia).
  split; [exact Hlen|].
  exact (eth_addr_encode_frame eth_addr_broadcast (replicate 8 Byte.x55) Hlen).
Defined.

Lemma eth_addr_compare_order_witness :
  eth_addr_compare {| a := 5 |} {| a := 7 |} = -1 ∧
  eth_addr_compare {| a := 7 |} {| a := 9 |} = -1 ∧
  eth_addr_compare {| a := 5 |} {| a := 9 |} = -1.
Proof.
  assert (H1 : eth_addr_compare {| a := 5 |} {| a := 7 |} = -1) by reflexivity.
  assert (H2 : eth_addr_compare {| a := 7 |} {| a := 9 |} = -1) by reflexivity.
  split; [exact H1|]. split; [exact H2|].
  exact (proj2 (proj2 (proj2
           (eth_addr_compare_order {| a := 5 |} {| a := 7 |} {| a := 9 |}))) H1 H2).
Defined.

Lemma eth_addr_compare_bytes_witness :
  eth_addr_compare {| a := 0x001b213c9dff |} {| a := 0x001b220000aa |}
  = bytes_compare [Byte.x00; Byte.x1b; Byte.x21; Byte.x3c; Byte.x9d; Byte.xff]
                  [Byte.x00; Byte.x1b; Byte.x22; Byte.x00; Byte.x00; Byte.xaa].
Proof.
  apply (eth_addr_compare_bytes {| a := 0x001b213c9dff |} {| a := 0x001b220000aa |}
           (replicate 6 Byte.x00) (replicate 6 Byte.x00));
    first [reflexivity | simpl; lia].
Defined.

Lemma eth_addr_format_text_witness :
  (18 <= length (replicate 20 Byte.x55))%nat ∧
  ∃ bs text,
    eth_addr_encode {| a := 0x001b213c9d0f |} (replicate 6 Byte.x00) = Some bs ∧
    text = colon_hex bs ∧
    eth_addr_format {| a := 0x001b213c9d0f |} (replicate 20 Byte.x55)
      = Some (text ++ Byte.x00 :: drop 18 (replicate 20 Byte.x55)) ∧
    length text = 17%nat ∧
    Byte.x00 ∉ text.
Proof.
  assert (Hlen : (18 <= length (replicate 20 Byte.x55))%nat) by (simpl; lia).
  split; [exact Hlen|].
  exact (eth_addr_format_text {| a := 0x001b213c9d0f |} (replicate 20 Byte.x55)
           (replicate 6 Byte.x00) Hlen eq_refl).
Defined.

(** The text of one address, as a string. *)
Lemma eth_addr_format_example :
  (λ out, string_of_list_byte (take 17 out))
    <$> eth_addr_format {| a := 0x001b213c9d0f |} (replicate 18 Byte.x00)
  = Some "00:1b:21:3c:9d:0f"%string.
Proof. vm_compute. reflexivity. Qed.

Lemma eth_addr_format_inj_witness :
  {| a := 0x001b213c9d0f |} = {| a := 0x001b213c9d0f |}.
Proof.
  apply (eth_addr_format_inj {| a := 0x001b213c9d0f |} {| a := 0x001b213c9d0f |}
           (replicate 18 Byte.x00) (replicate 20 Byte.x55)
           (list_byte_of_string "00:1b:21:3c:9d:0f" ++ [Byte.x00])
           (list_byte_of_string "00:1b:21:3c:9d:0f" ++ [Byte.x00; Byte.x55; Byte.x55]));
    first [simpl; lia | vm_compute; reflexivity].
Defined.

End EthAddrMore.

(** ** Timeouts: linkage, frames and round trips *)

Module TimeoutLinkage.
Import Timeout TimeoutFacts.

(** *** Lists *)

Lemma filter_ne_absent (x : nat) (l : list nat) :
  x ∉ l → filter (λ q, q ≠ x) l = l.
Proof.
  induction l as [|y l IH]; intros Hx; [reflexivity|].
  apply not_elem_of_cons in Hx as [Hne Hx].
  rewrite filter_cons_True by auto. now rewrite IH.
Qed.

Lemma filter_ne_inserted (x : nat) (n : nat) (l : list nat) :
  x ∉ l → filter (λ q, q ≠ x) (inserted x n l) = l.
Proof.
  intros Hx. unfold inserted.
  rewrite filter_app, filter_cons_False by auto.
  rewrite <- filter_app, take_drop. now apply filter_ne_absent.
Qed.

Lemma filter_ne_Permutation (x : nat) (l : list nat) :
  NoDup l → x ∈ l → l ≡ₚ x :: filter (λ q, q ≠ x) l.
Proof.
  induction l as [|y l IH]; intros Hnd Hx; [inversion Hx|].
  apply NoDup_cons in Hnd as [Hy Hnd].
  destruct (decide (y = x)) as [->|Hne].
  - rewrite filter_cons_False by auto. now rewrite filter_ne_absent.
  - rewrite filter_cons_True by auto.
    apply elem_of_cons in Hx as [->|Hx]; [congruence|].
    rewrite (IH Hnd Hx) at 1. apply Permutation_swap.
Qed.

Lemma inserted_Permutation (x : nat) (n : nat) (l : list nat) :
  inserted x n l ≡ₚ x :: l.
Proof.
  unfold inserted. rewrite <- Permutation_middle. now rewrite take_drop.
Qed.

Lemma unlink_absent (p : nat) (c : cpu_t) :
  p ∉ timeout_active_list c → unlink p c = c.
Proof.
  intros Hp. unfold unlink. rewrite filter_ne_absent by exact Hp.
  now destruct c.
Qed.

(** *** The invariant *)

Lemma lists_NoDup k :
  well_linked k → ∀ c cs, cpus k !! c = Some cs → NoDup (timeout_active_list cs).
Proof. intros (_ & Hnd & _) c cs Hc. exact (Hnd c cs Hc). Qed.

Lemma owner_linked k :
  well_linked k → ∀ p t c,
    timeouts k !! p = Some t → cpu t = Some c → linked_in k c p.
Proof.
  intros (_ & _ & Ho) p t c Ht Hcpu. specialize (Ho p t Ht).
  unfold owner_links in Ho. now rewrite Hcpu in Ho.
Qed.

Lemma well_linked_consistent k : well_linked k → consistent k.
Proof. now intros (Hk & _). Qed.

Lemma well_linked_intro k :
  consistent k →
  (∀ c cs, cpus k !! c = Some cs → NoDup (timeout_active_list cs)) →
  (∀ p t c, timeouts k !! p = Some t → cpu t = Some c → linked_in k c p) →
  well_linked k.
Proof.
  intros Hk Hnd Ho. split; [exact Hk|]. split.
  - intros c cs Hc. simpl. eauto.
  - intros p t Ht. unfold owner_links.
    destruct (cpu t) as [c|] eqn:Hcpu; [eauto|exact I].
Qed.

Lemma booted_well_linked k : booted k → well_linked k.
Proof.
  intros Hboot. pose proof Hboot as [Hlists Hidle].
  apply well_linked_intro.
  - now apply booted_consistent.
  - intros c cs Hc. rewrite (Hlists c cs Hc). constructor.
  - intros p t c Ht Hcpu. rewrite (Hidle p t Ht) in Hcpu. discriminate.
Qed.

Lemma timeout_register_well_linked us2ticks CPU timeout time h a k k' :
  well_linked k →
  timeout_register us2ticks CPU timeout time h a k = Ok k' →
  well_linked k'.
Proof.
  intros Hw Hreg. pose proof (well_linked_consistent k Hw) as Hk.
  apply well_linked_intro.
  - eapply timeout_register_consistent; eauto.
  - apply timeout_register_Ok in Hreg
      as (c & t & n & Hc & Ht & Hidle & _ & _ & _ & ->).
    intros c0 cs0 Hc0. simpl in Hc0.
    destruct (decide (c0 = CPU)) as [->|Hne].
    + rewrite lookup_insert_eq in Hc0. inversion Hc0; subst cs0. simpl.
      rewrite inserted_Permutation. apply NoDup_cons. split.
      * eapply idle_not_linked; eauto.
      * eapply lists_NoDup; eauto.
    + rewrite lookup_insert_ne in Hc0 by auto. eapply lists_NoDup; eauto.
  - apply timeout_register_Ok in Hreg
      as (c & t & n & Hc & Ht & Hidle & _ & _ & _ & ->).
    intros p tp c0 Htp Hcpu. simpl in Htp. unfold linked_in. simpl.
    destruct (decide (p = timeout)) as [->|Hne].
    + rewrite lookup_insert_eq in Htp. inversion Htp; subst tp.
      simpl in Hcpu. inversion Hcpu; subst c0.
      rewrite lookup_insert_eq. simpl. apply elem_of_inserted. now left.
    + rewrite lookup_insert_ne in Htp by auto.
      pose proof (owner_linked k Hw p tp c0 Htp Hcpu) as Hl.
      unfold linked_in in Hl.
      destruct (decide (c0 = CPU)) as [->|Hne'].
      * rewrite lookup_insert_eq. simpl. rewrite Hc in Hl.
        apply elem_of_inserted. now right.
      * now rewrite lookup_insert_ne by auto.
Qed.

Lemma timeout_unregister_well_linked timeout k b k' :
  well_linked k →
  timeout_unregister timeout k = Ok (b, k') →
  well_linked k'.
Proof.
  intros Hw Hun. pose proof (well_linked_consistent k Hw) as Hk.
  apply well_linked_intro.
  - eapply timeout_unregister_consistent; eauto.
  - apply timeout_unregister_Ok in Hun
      as (t & Ht & [(_ & _ & ->)|(c & Hcpu & _ & _ & ->)]).
    + now apply lists_NoDup.
    + intros c0 cs0 Hc0. simpl in Hc0.
      apply lookup_fmap_Some in Hc0 as (cs & <- & Hcs). simpl.
      apply NoDup_filter. eapply lists_NoDup; eauto.
  - apply timeout_unregister_Ok in Hun
      as (t & Ht & [(_ & _ & ->)|(c & Hcpu & _ & _ & ->)]).
    + now apply owner_linked.
    + intros p tp c0 Htp Hown. simpl in Htp. unfold linked_in. simpl.
      destruct (decide (p = timeout)) as [->|Hne].
      * rewrite lookup_insert_eq in Htp. inversion Htp; subst tp. discriminate.
      * rewrite lookup_insert_ne in Htp by auto.
        pose proof (owner_linked k Hw p tp c0 Htp Hown) as Hl.
        unfold linked_in in Hl. rewrite lookup_fmap.
        destruct (cpus k !! c0) as [cs0|]; [|contradiction]. simpl.
        apply list_elem_of_filter. auto.
Qed.

Lemma do_calls_well_linked us2ticks calls k k' :
  well_linked k → do_calls us2ticks calls k = Ok k' → well_linked k'.
Proof.
  revert k. induction calls as [|c rest IH]; intros k Hk; simpl.
  - intros [= <-]. exact Hk.
  - intros Hrun. apply bind_Ok in Hrun as (k1 & Hcall & Hrun).
    apply (IH k1); [|exact Hrun].
    destruct c as [CPU timeout time h a|timeout]; simpl in Hcall.
    + eapply timeout_register_well_linked; eauto.
    + apply bind_Ok in Hcall as ([b k2] & Hun & [= <-]).
      eapply timeout_unregister_well_linked; eauto.
Qed.

(** [timeout_unregister] on a registered timeout, spelled out. *)
Lemma timeout_unregister_owned timeout k t c :
  consistent k → timeouts k !! timeout = Some t → cpu t = Some c →
  timeout_unregister timeout k
  = Ok (true, timeout_reinitialize timeout (list_remove timeout k)).
Proof.
  intros Hk Ht Hcpu. unfold timeout_unregister, deref. rewrite Ht. simpl.
  rewrite Hcpu.
  destruct (owner_exists k Hk timeout t c Ht Hcpu) as [cs Hcs].
  rewrite Hcs. simpl.
  destruct (list_next timeout (timeout_active_list cs)) as [tmp|] eqn:Hn;
    [|reflexivity].
  apply list_next_elem_of in Hn.
  destruct (linked_owned k Hk c cs tmp Hcs Hn) as (x & -> & _). reflexivity.
Qed.


(** X1.  In every state a sequence of [timeout_register] and
    [timeout_unregister] calls reaches from boot, a timeout names a
    processor as its owner exactly when it is linked into the active list
    of that processor. *)
Theorem timeout_owner_iff_linked us2ticks calls k0 k p t c :
  booted k0 →
  do_calls us2ticks calls k0 = Ok k →
  timeouts k !! p = Some t →
  cpu t = Some c ↔ linked_in k c p.
Proof.
  intros Hboot Hrun Ht.
  assert (Hw : well_linked k)
    by (eapply do_calls_well_linked; [apply booted_well_linked|]; eauto).
  split.
  - intros Hcpu. eapply owner_linked; eauto.
  - unfold linked_in. intros Hl.
    destruct (cpus k !! c) as [cs|] eqn:Hc; [|contradiction].
    destruct (linked_owned k (well_linked_consistent k Hw) c cs p Hc Hl)
      as (t' & Ht' & Hcpu).
    congruence.
Qed.

(** X2.  In every state reached from boot no timeout is linked twice:
    an active list holds each timeout at most once, and a timeout is in
    the list of at most one processor. *)
Theorem timeout_linked_once us2ticks calls k0 k :
  booted k0 →
  do_calls us2ticks calls k0 = Ok k →
  (∀ c cs, cpus k !! c = Some cs → NoDup (timeout_active_list cs)) ∧
  (∀ c1 c2 p, linked_in k c1 p → linked_in k c2 p → c1 = c2).
Proof.
  intros Hboot Hrun.
  assert (Hw : well_linked k)
    by (eapply do_calls_well_linked; [apply booted_well_linked|]; eauto).
  split; [now apply lists_NoDup|].
  unfold linked_in. intros c1 c2 p H1 H2.
  destruct (cpus k !! c1) as [cs1|] eqn:Hc1; [|contradiction].
  destruct (cpus k !! c2) as [cs2|] eqn:Hc2; [|contradiction].
  destruct (linked_owned k (well_linked_consistent k Hw) c1 cs1 p Hc1 H1)
    as (t1 & Ht1 & Hcpu1).
  destruct (linked_owned k (well_linked_consistent k Hw) c2 cs2 p Hc2 H2)
    as (t2 & Ht2 & Hcpu2).
  congruence.
Qed.

(** X3.  [timeout_register] on an idle timeout adds the timeout to the
    active list of the calling processor and touches nothing else: the
    list keeps all its entries, the clock tick of the processor, the lists
    of the other processors and all other timeouts stay as they were. *)
Theorem timeout_register_frame us2ticks CPU timeout time h a k c t :
  consistent k → cpus k !! CPU = Some c → timeouts k !! timeout = Some t →
  cpu t = None →
  ∃ k' c',
    timeout_register us2ticks CPU timeout time h a k = Ok k' ∧
    cpus k' !! CPU = Some c' ∧
    timeout_active_list c' ≡ₚ timeout :: timeout_active_list c ∧
    current_clock_tick c' = current_clock_tick c ∧
    (∀ c0, c0 ≠ CPU → cpus k' !! c0 = cpus k !! c0) ∧
    (∀ p, p ≠ timeout → timeouts k' !! p = timeouts k !! p).
Proof.
  intros Hk Hc Ht Hidle.
  destruct (timeout_register_returns us2ticks CPU timeout time h a k c t)
    as [k' Hreg]; auto.
  pose proof Hreg as Hinv.
  apply timeout_register_Ok in Hinv
    as (c1 & t1 & n & Hc1 & _ & _ & _ & _ & _ & ->).
  assert (c1 = c) as -> by congruence.
  eexists _, _. split; [exact Hreg|]. simpl.
  split; [apply lookup_insert_eq|]. simpl.
  split; [apply inserted_Permutation|].
  split; [reflexivity|]. split.
  - intros c0 Hne. now rewrite lookup_insert_ne.
  - intros p Hne. now rewrite lookup_insert_ne.
Qed.

(** X4.  [timeout_unregister] on a registered timeout returns [true],
    takes exactly that timeout out of the list of its owner (the other
    entries stay, in their order), resets the timeout to the state
    [timeout_reinitialize] gives, and touches no other processor and no
    other timeout. *)
Theorem timeout_unregister_effect timeout k t c cs :
  well_linked k → timeouts k !! timeout = Some t → cpu t = Some c →
  cpus k !! c = Some cs →
  ∃ k' cs',
    timeout_unregister timeout k = Ok (true, k') ∧
    cpus k' !! c = Some cs' ∧
    timeout_active_list cs ≡ₚ timeout :: timeout_active_list cs' ∧
    timeout_active_list cs' `sublist_of` timeout_active_list cs ∧
    current_clock_tick cs' = current_clock_tick cs ∧
    timeouts k' !! timeout = Some reinitialized ∧
    (∀ c0, c0 ≠ c → cpus k' !! c0 = cpus k !! c0) ∧
    (∀ p, p ≠ timeout → timeouts k' !! p = timeouts k !! p).
Proof.
  intros Hw Ht Hcpu Hcs. pose proof (well_linked_consistent k Hw) as Hk.
  eexists _, (unlink timeout cs).
  split; [eapply timeout_unregister_owned; eauto|]. simpl.
  split; [now rewrite lookup_fmap, Hcs|]. simpl.
  pose proof (owner_linked k Hw timeout t c Ht Hcpu) as Hl.
  unfold linked_in in Hl. rewrite Hcs in Hl.
  split; [apply filter_ne_Permutation; [eapply lists_NoDup; eauto|exact Hl]|].
  split; [apply sublist_filter|].
  split; [reflexivity|].
  split; [apply lookup_insert_eq|]. split.
  - intros c0 Hne. rewrite lookup_fmap.
    destruct (cpus k !! c0) as [cs0|] eqn:Hc0; [|reflexivity]. simpl.
    f_equal. apply unlink_absent. intros Hin.
    destruct (linked_owned k Hk c0 cs0 timeout Hc0 Hin) as (t' & Ht' & Hcpu').
    congruence.
  - intros p Hne. now rewrite lookup_insert_ne.
Qed.

(** X5.  Registering an idle timeout and unregistering it right away
    gives back the processors as they were, active lists included; the
    timeout is left reinitialized, so a timeout that was fresh before is
    fresh again and the whole state is the one before the two calls. *)
Theorem timeout_register_unregister us2ticks CPU timeout time h a k c t :
  consistent k → cpus k !! CPU = Some c → timeouts k !! timeout = Some t →
  cpu t = None →
  ∃ k1 k2,
    timeout_register us2ticks CPU timeout time h a k = Ok k1 ∧
    timeout_unregister timeout k1 = Ok (true, k2) ∧
    cpus k2 = cpus k ∧
    timeouts k2 = <[timeout := reinitialized]> (timeouts k) ∧
    (t = reinitialized → k2 = k).
Proof.
  intros Hk Hc Ht Hidle.
  assert (Hfresh : ∀ c0 cs0, cpus k !! c0 = Some cs0 →
                             timeout ∉ timeout_active_list cs0)
    by (intros c0 cs0 Hc0; exact (idle_not_linked k timeout t c0 cs0 Hk Ht Hidle Hc0)).
  destruct (timeout_register_returns us2ticks CPU timeout time h a k c t)
    as [k1 Hreg]; auto.
  pose proof (timeout_register_consistent _ _ _ _ _ _ _ _ Hk Hreg) as Hk1.
  pose proof Hreg as Hinv.
  apply timeout_register_Ok in Hinv
    as (c1 & t1 & n & Hc1 & _ & _ & _ & _ & _ & Heq).
  assert (c1 = c) as -> by congruence.
  assert (Ht1 : timeouts k1 !! timeout
                = Some (registered us2ticks CPU c time h a))
    by (rewrite Heq; simpl; apply lookup_insert_eq).
  exists k1, (timeout_reinitialize timeout (list_remove timeout k1)).
  split; [exact Hreg|].
  split; [eapply timeout_unregister_owned; eauto; reflexivity|].
  assert (Hcpus : unlink timeout <$> cpus k1 = cpus k).
  { rewrite Heq. simpl. apply map_eq. intros c0. rewrite lookup_fmap.
    destruct (decide (c0 = CPU)) as [->|Hne].
    - rewrite lookup_insert_eq, Hc. simpl. f_equal. unfold unlink. simpl.
      rewrite filter_ne_inserted by (exact (Hfresh CPU c Hc)).
      now destruct c.
    - rewrite lookup_insert_ne by auto.
      destruct (cpus k !! c0) as [cs0|] eqn:Hc0; [|reflexivity]. simpl.
      f_equal. apply unlink_absent. exact (Hfresh c0 cs0 Hc0). }
  assert (Htimeouts : <[timeout := reinitialized]> (timeouts k1)
                      = <[timeout := reinitialized]> (timeouts k))
    by (rewrite Heq; simpl; apply insert_insert_eq).
  simpl. split; [exact Hcpus|]. split; [exact Htimeouts|].
  intros ->. unfold timeout_reinitialize, list_remove, set_timeout. simpl.
  rewrite Hcpus, Htimeouts, (insert_id _ _ _ Ht). now destruct k.
Qed.

(** X6.  A timeout cannot be registered twice: once [timeout_register]
    has returned, registering the same timeout again, from whichever
    processor and with whatever arguments, ends in the panic. *)
Theorem timeout_register_twice us2ticks CPU timeout time h a
    CPU2 time2 h2 a2 k c c2 t :
  consistent k → cpus k !! CPU = Some c → cpus k !! CPU2 = Some c2 →
  timeouts k !! timeout = Some t → cpu t = None →
  ∃ k1,
    timeout_register us2ticks CPU timeout time h a k = Ok k1 ∧
    timeout_register us2ticks CPU2 timeout time2 h2 a2 k1
      = Panic "Unexpected: timeout->cpu != 0.".
Proof.
  intros Hk Hc Hc2 Ht Hidle.
  destruct (timeout_register_returns us2ticks CPU timeout time h a k c t)
    as [k1 Hreg]; auto.
  exists k1. split; [exact Hreg|].
  apply timeout_register_Ok in Hreg
    as (c1 & t1 & n & Hc1 & _ & _ & _ & _ & _ & ->).
  unfold timeout_register, deref. simpl.
  assert (Hsome : is_Some (<[CPU := {| current_clock_tick := current_clock_tick c1;
                       timeout_active_list :=
                         inserted timeout n (timeout_active_list c1) |}]>
                     (cpus k) !! CPU2))
    by (apply lookup_insert_is_Some'; eauto).
  destruct Hsome as [x ->]. simpl.
  now rewrite lookup_insert_eq.
Qed.

(** *** Boot *)

Lemma init_processors_Ok cs k :
  Forall (λ c, is_Some (cpus k !! c)) cs →
  ∃ k1, init_processors cs k = Ok k1 ∧
        timeouts k1 = timeouts k ∧
        ∀ c x, cpus k1 !! c = Some x →
          (c ∈ cs → timeout_active_list x = []) ∧
          (c ∉ cs → cpus k !! c = Some x) ∧
          is_Some (cpus k !! c).
Proof.
  revert k. induction cs as [|c0 cs IH]; intros k Hall; simpl.
  - exists k. split; [reflexivity|]. split; [reflexivity|].
    intros c x Hx. repeat split; eauto. intros Hin. inversion Hin.
  - apply Forall_cons in Hall as [[x0 Hx0] Hall].
    unfold timeout_init, deref. rewrite Hx0. simpl.
    destruct (IH (set_cpu c0 {| current_clock_tick := current_clock_tick x0;
                                timeout_active_list := [] |} k))
      as (k1 & -> & Hts & Hcpus).
    { eapply Forall_impl; [exact Hall|]. simpl. intros c Hc.
      apply lookup_insert_is_Some'. auto. }
    exists k1. split; [reflexivity|]. split; [exact Hts|].
    intros c x Hx. destruct (Hcpus c x Hx) as (Hin & Hout & Hsome).
    simpl in Hout, Hsome.
    assert (Hold : is_Some (cpus k !! c)).
    { destruct (decide (c = c0)) as [->|Hne]; [eauto|].
      now rewrite lookup_insert_ne in Hsome by auto. }
    repeat split; [|intros Hnin|exact Hold].
    + intros Hc. destruct (decide (c ∈ cs)) as [Hcs|Hcs]; [auto|].
      apply elem_of_cons in Hc as [->|Hc]; [|contradiction].
      specialize (Hout Hcs). rewrite lookup_insert_eq in Hout.
      now inversion Hout.
    + apply not_elem_of_cons in Hnin as [Hne Hnin].
      specialize (Hout Hnin). now rewrite lookup_insert_ne in Hout by auto.
Qed.

Lemma init_timeouts_cpus ps k : cpus (init_timeouts ps k) = cpus k.
Proof. induction ps as [|p ps IH]; simpl; [reflexivity|exact IH]. Qed.

Lemma init_timeouts_lookup ps k p t :
  timeouts (init_timeouts ps k) !! p = Some t →
  (p ∈ ps → t = reinitialized) ∧ (p ∉ ps → timeouts k !! p = Some t).
Proof.
  revert t. induction ps as [|q ps IH]; intros t; simpl.
  - intros Ht. split; [intros Hin; inversion Hin|auto].
  - destruct (decide (p = q)) as [->|Hne].
    + rewrite lookup_insert_eq. intros [= <-]. split; [auto|].
      intros Hnin. exfalso. apply Hnin. now left.
    + rewrite lookup_insert_ne by auto. intros Ht.
      destruct (IH t Ht) as [Hin Hout]. split.
      * intros Hp. apply elem_of_cons in Hp as [->|Hp]; [congruence|auto].
      * intros Hnin. apply not_elem_of_cons in Hnin as [_ Hnin]. auto.
Qed.

(** X7.  Boot: [timeout_init] run on every processor and
    [timeout_initialize] run on every timeout, whatever they held before,
    leave the machine in the booted state: all active lists empty, all
    timeouts idle. *)
Theorem boot_is_booted cs ps k :
  list_to_set cs = dom (cpus k) →
  dom (timeouts k) ⊆ list_to_set ps →
  ∃ k1, init_processors cs k = Ok k1 ∧ booted (init_timeouts ps k1).
Proof.
  intros Hcs Hps.
  destruct (init_processors_Ok cs k) as (k1 & Hinit & Hts & Hcpus).
  { apply Forall_forall. intros c Hc. apply elem_of_dom.
    rewrite <- Hcs. now apply elem_of_list_to_set. }
  exists k1. split; [exact Hinit|]. split.
  - intros c x Hx. simpl. rewrite init_timeouts_cpus in Hx.
    destruct (Hcpus c x Hx) as (Hin & _ & Hsome). apply Hin.
    apply elem_of_dom in Hsome. rewrite <- Hcs in Hsome.
    now apply elem_of_list_to_set in Hsome.
  - intros p t Ht. simpl.
    destruct (init_timeouts_lookup ps k1 p t Ht) as [Hin Hout].
    destruct (decide (p ∈ ps)) as [Hp|Hp]; [now rewrite (Hin Hp)|].
    exfalso. specialize (Hout Hp). rewrite Hts in Hout.
    assert (Hd : p ∈ dom (timeouts k)) by (apply elem_of_dom; eauto).
    apply Hps in Hd. now apply elem_of_list_to_set in Hd.
Qed.

(** *** Worked runs *)

Lemma timeout_owner_iff_linked_witness :
  booted demo_boot ∧
  do_calls demo_us2ticks demo_calls demo_boot = Ok (demo_after demo_calls) ∧
  timeouts (demo_after demo_calls) !! 1%nat
    = Some {| cpu := Some 0%nat; deadline := 105; handler := None; arg := None |} ∧
  (cpu {| cpu := Some 0%nat; deadline := 105; handler := None; arg := None |}
     = Some 0%nat ↔ linked_in (demo_after demo_calls) 0 1).
Proof.
  assert (Hboot : booted demo_boot)
    by (split; refine (bool_decide_unpack _ _); vm_compute; exact I).
  assert (Hrun : do_calls demo_us2ticks demo_calls demo_boot
                 = Ok (demo_after demo_calls)) by (vm_compute; reflexivity).
  assert (Ht : timeouts (demo_after demo_calls) !! 1%nat
               = Some {| cpu := Some 0%nat; deadline := 105;
                         handler := None; arg := None |})
    by (vm_compute; reflexivity).
  split; [exact Hboot|]. split; [exact Hrun|]. split; [exact Ht|].
  exact (timeout_owner_iff_linked demo_us2ticks demo_calls demo_boot
           (demo_after demo_calls) 1 _ 0 Hboot Hrun Ht).
Defined.

Lemma timeout_linked_once_witness :
  booted demo_boot ∧
  do_calls demo_us2ticks demo_calls demo_boot = Ok (demo_after demo_calls) ∧
  (∀ c cs, cpus (demo_after demo_calls) !! c = Some cs →
           NoDup (timeout_active_list cs)) ∧
  (∀ c1 c2 p, linked_in (demo_after demo_calls) c1 p →
              linked_in (demo_after demo_calls) c2 p → c1 = c2).
Proof.
  assert (Hboot : booted demo_boot)
    by (split; refine (bool_decide_unpack _ _); vm_compute; exact I).
  assert (Hrun : do_calls demo_us2ticks demo_calls demo_boot
                 = Ok (demo_after demo_calls)) by (vm_compute; reflexivity).
  split; [exact Hboot|]. split; [exact Hrun|].
  exact (timeout_linked_once demo_us2ticks demo_calls demo_boot
           (demo_after demo_calls) Hboot Hrun).
Defined.

Lemma timeout_register_frame_witness :
  consistent demo_busy ∧
  ∃ k' c',
    timeout_register demo_us2ticks 0 3 500 None None demo_busy = Ok k' ∧
    cpus k' !! 0%nat = Some c' ∧
    timeout_active_list c' ≡ₚ 3%nat :: timeout_active_list demo_cpu0 ∧
    current_clock_tick c' = current_clock_tick demo_cpu0 ∧
    (∀ c0, c0 ≠ 0%nat → cpus k' !! c0 = cpus demo_busy !! c0) ∧
    (∀ p, p ≠ 3%nat → timeouts k' !! p = timeouts demo_busy !! p).
Proof.
  assert (Hk : consistent demo_busy)
    by (refine (bool_decide_unpack _ _); vm_compute; exact I).
  assert (Hc : cpus demo_busy !! 0%nat = Some demo_cpu0) by (vm_compute; reflexivity).
  assert (Ht3 : timeouts demo_busy !! 3%nat = Some reinitialized)
    by (vm_compute; reflexivity).
  split; [exact Hk|].
  exact (timeout_register_frame demo_us2ticks 0 3 500 None None
           demo_busy demo_cpu0 reinitialized Hk Hc Ht3 eq_refl).
Defined.

Lemma timeout_unregister_effect_witness :
  well_linked demo_busy ∧
  ∃ k' cs',
    timeout_unregister 2 demo_busy = Ok (true, k') ∧
    cpus k' !! 0%nat = Some cs' ∧
    timeout_active_list demo_cpu0 ≡ₚ 2%nat :: timeout_active_list cs' ∧
    timeout_active_list cs' `sublist_of` timeout_active_list demo_cpu0 ∧
    current_clock_tick cs' = current_clock_tick demo_cpu0 ∧
    timeouts k' !! 2%nat = Some reinitialized ∧
    (∀ c0, c0 ≠ 0%nat → cpus k' !! c0 = cpus demo_busy !! c0) ∧
    (∀ p, p ≠ 2%nat → timeouts k' !! p = timeouts demo_busy !! p).
Proof.
  assert (Hw : well_linked demo_busy)
    by (refine (bool_decide_unpack _ _); vm_compute; exact I).
  assert (Hc : cpus demo_busy !! 0%nat = Some demo_cpu0) by (vm_compute; reflexivity).
  assert (Ht : timeouts demo_busy !! 2%nat = Some demo_timeout2)
    by (vm_compute; reflexivity).
  split; [exact Hw|].
  exact (timeout_unregister_effect 2 demo_busy demo_timeout2 0 demo_cpu0
           Hw Ht eq_refl Hc).
Defined.

Lemma timeout_register_unregister_witness :
  consistent demo_busy ∧
  ∃ k1 k2,
    timeout_register demo_us2ticks 0 3 30 (Some 9%nat) None demo_busy = Ok k1 ∧
    timeout_unregister 3 k1 = Ok (true, k2) ∧
    cpus k2 = cpus demo_busy ∧
    timeouts k2 = <[3%nat := reinitialized]> (timeouts demo_busy) ∧
    (reinitialized = reinitialized → k2 = demo_busy).
Proof.
  assert (Hk : consistent demo_busy)
    by (refine (bool_decide_unpack _ _); vm_compute; exact I).
  assert (Hc : cpus demo_busy !! 0%nat = Some demo_cpu0) by (vm_compute; reflexivity).
  assert (Ht3 : timeouts demo_busy !! 3%nat = Some reinitialized)
    by (vm_compute; reflexivity).
  split; [exact Hk|].
  exact (timeout_register_unregister demo_us2ticks 0 3 30 (Some 9%nat) None
           demo_busy demo_cpu0 reinitialized Hk Hc Ht3 eq_refl).
Defined.

Lemma timeout_register_twice_witness :
  consistent demo_busy ∧
  ∃ k1,
    timeout_register demo_us2ticks 0 3 30 None None demo_busy = Ok k1 ∧
    timeout_register demo_us2ticks 1 3 70 (Some 9%nat) None k1
      = Panic "Unexpected: timeout->cpu != 0.".
Proof.
  assert (Hk : consistent demo_busy)
    by (refine (bool_decide_unpack _ _); vm_compute; exact I).
  assert (Hc : cpus demo_busy !! 0%nat = Some demo_cpu0) by (vm_compute; reflexivity).
  assert (Hc2 : cpus demo_busy !! 1%nat
                = Some {| current_clock_tick := 7; timeout_active_list := [] |})
    by (vm_compute; reflexivity).
  assert (Ht3 : timeouts demo_busy !! 3%nat = Some reinitialized)
    by (vm_compute; reflexivity).
  split; [exact Hk|].
  exact (timeout_register_twice demo_us2ticks 0 3 30 None None 1 70 (Some 9%nat) None
           demo_busy demo_cpu0 _ reinitialized Hk Hc Hc2 Ht3 eq_refl).
Defined.

Lemma boot_is_booted_witness :
  list_to_set [0; 1]%nat = dom (cpus demo_busy) ∧
  dom (timeouts demo_busy) ⊆ list_to_set [1; 2; 3; 4; 5]%nat ∧
  ∃ k1, init_processors [0; 1]%nat demo_busy = Ok k1 ∧
        booted (init_timeouts [1; 2; 3; 4; 5]%nat k1).
Proof.
  assert (Hcs : list_to_set [0; 1]%nat = dom (cpus demo_busy))
    by (refine (bool_decide_unpack _ _); vm_compute; exact I).
  assert (Hps : dom (timeouts demo_busy) ⊆ list_to_set [1; 2; 3; 4; 5]%nat)
    by (refine (bool_decide_unpack _ _); vm_compute; exact I).
  split; [exact Hcs|]. split; [exact Hps|].
  exact (boot_is_booted [0; 1]%nat [1; 2; 3; 4; 5]%nat demo_busy Hcs Hps).
Defined.

End TimeoutLinkage.

(** ** The NE2000 driver *)

Module Ne2000Facts.
Import Irq Ne2000.

Lemma irq_held_app (held : bool) (tr tr' : list event) :
  irq_held held (tr ++ tr') = irq_held held tr ≫= λ h, irq_held h tr'.
Proof.
  revert held. induction tr as [|e tr IH]; intros held; [reflexivity|].
  destruct e as [inr devno method code rc|inr devno|rc| |text|phone inr];
    cbn [app irq_held]; auto.
  - destruct (decide (rc = EOK)); [destruct held|]; auto.
  - destruct held; auto.
Qed.

Section Driver.

Variable NAME : string.
Variables DP_ISR DP_IMR DP_TSR : Z.
Variable state_code : device_state_t → Z.

(** *** The paths through [change_state], [netif_start_message] and
    [netif_stop_message] *)

Lemma change_state_changes s d w :
  state d ≠ s →
  change_state NAME s (d, w)
  = (set_state s d,
     emit (Printf (NAME ++ ": State changed to " ++ state_desc s ++ newline)) w).
Proof.
  intros Hne. unfold change_state.
  destruct (decide (state d ≠ s)); [reflexivity|contradiction].
Qed.

Lemma start_active rc1 rc2 d w :
  state d = NETIF_ACTIVE →
  netif_start_message NAME DP_ISR DP_IMR DP_TSR state_code rc1 rc2 (d, w)
  = (state_code NETIF_ACTIVE, (d, w)).
Proof.
  intros Hs. unfold netif_start_message. rewrite Hs.
  destruct (decide (NETIF_ACTIVE ≠ NETIF_ACTIVE)); [contradiction|reflexivity].
Qed.

Lemma start_register_fails rc1 rc2 d w :
  state d ≠ NETIF_ACTIVE → rc1 ≠ EOK →
  netif_start_message NAME DP_ISR DP_IMR DP_TSR state_code rc1 rc2 (d, w)
  = (rc1, (d, registering DP_ISR DP_IMR DP_TSR rc1 d w)).
Proof.
  intros Hs Hrc. unfold netif_start_message.
  destruct (decide (state d ≠ NETIF_ACTIVE)); [|contradiction].
  destruct (decide (rc1 ≠ EOK)); [reflexivity|contradiction].
Qed.

Lemma start_up_fails rc2 d w :
  state d ≠ NETIF_ACTIVE → rc2 ≠ EOK →
  netif_start_message NAME DP_ISR DP_IMR DP_TSR state_code EOK rc2 (d, w)
  = (rc2, (d, emit (Unregister_irq (irq (specific d)) (device_id d))
                (emit (Ne2k_up rc2) (registering DP_ISR DP_IMR DP_TSR EOK d w)))).
Proof.
  intros Hs Hrc. unfold netif_start_message.
  destruct (decide (state d ≠ NETIF_ACTIVE)); [|contradiction].
  destruct (decide (EOK ≠ EOK)); [contradiction|].
  destruct (decide (rc2 ≠ EOK)); [reflexivity|contradiction].
Qed.

Lemma start_succeeds d w :
  state d ≠ NETIF_ACTIVE →
  netif_start_message NAME DP_ISR DP_IMR DP_TSR state_code EOK EOK (d, w)
  = (state_code NETIF_ACTIVE, (set_state NETIF_ACTIVE d, started NAME DP_ISR DP_IMR DP_TSR d w)).
Proof.
  intros Hs. unfold netif_start_message.
  destruct (decide (state d ≠ NETIF_ACTIVE)); [|contradiction].
  destruct (decide (EOK ≠ EOK)); [contradiction|].
  rewrite change_state_changes by exact Hs. reflexivity.
Qed.

Lemma stop_stopped d w :
  state d = NETIF_STOPPED →
  netif_stop_message NAME state_code (d, w) = (state_code NETIF_STOPPED, (d, w)).
Proof.
  intros Hs. unfold netif_stop_message. rewrite Hs.
  destruct (decide (NETIF_STOPPED ≠ NETIF_STOPPED)); [contradiction|reflexivity].
Qed.

Lemma stop_stops d w :
  state d ≠ NETIF_STOPPED →
  netif_stop_message NAME state_code (d, w)
  = (state_code NETIF_STOPPED,
     (set_state NETIF_STOPPED d,
      emit (Printf (NAME ++ ": State changed to "
                    ++ state_desc NETIF_STOPPED ++ newline))
        (emit (Unregister_irq (irq (specific d)) (device_id d))
           (emit Ne2k_down w)))).
Proof.
  intros Hs. unfold netif_stop_message.
  destruct (decide (state d ≠ NETIF_STOPPED)); [|contradiction].
  rewrite change_state_changes by exact Hs. reflexivity.
Qed.

Lemma rc_cases (rc1 rc2 : Z) :
  rc1 ≠ EOK ∨ (rc1 = EOK ∧ rc2 ≠ EOK) ∨ (rc1 = EOK ∧ rc2 = EOK).
Proof. destruct (decide (rc1 = EOK)), (decide (rc2 = EOK)); auto. Qed.

(** *** Registration follows the state *)

Lemma held_emit held e w :
  irq_held held (trace (emit e w))
  = irq_held held (trace w) ≫= λ h, irq_held h [e].
Proof. unfold emit. simpl. apply irq_held_app. Qed.

Lemma start_in_step rc1 rc2 dw :
  in_step dw →
  in_step (netif_start_message NAME DP_ISR DP_IMR DP_TSR state_code rc1 rc2 dw).2.
Proof.
  destruct dw as [d w]. unfold in_step.
  intros [[Hs Hh]|[Hs Hh]]; simpl in Hs, Hh.
  - assert (Hna : state d ≠ NETIF_ACTIVE) by (rewrite Hs; discriminate).
    destruct (rc_cases rc1 rc2) as [Hrc|[[-> Hrc]|[-> ->]]].
    + rewrite start_register_fails by assumption. left. simpl.
      split; [exact Hs|]. rewrite irq_held_app, Hh. simpl.
      destruct (decide (rc1 = EOK)); [contradiction|reflexivity].
    + rewrite start_up_fails by assumption. left. simpl.
      split; [exact Hs|]. rewrite !irq_held_app, Hh. reflexivity.
    + rewrite start_succeeds by assumption. right. simpl.
      split; [reflexivity|]. unfold started. simpl.
      destruct (irc_service w); simpl; rewrite !irq_held_app, Hh; reflexivity.
  - rewrite start_active by assumption. right. simpl. auto.
Qed.

Lemma stop_in_step dw :
  in_step dw → in_step (netif_stop_message NAME state_code dw).2.
Proof.
  destruct dw as [d w]. unfold in_step.
  intros [[Hs Hh]|[Hs Hh]]; simpl in Hs, Hh.
  - rewrite stop_stopped by assumption. left. simpl. auto.
  - assert (Hns : state d ≠ NETIF_STOPPED) by (rewrite Hs; discriminate).
    rewrite stop_stops by assumption. left. simpl.
    split; [reflexivity|]. rewrite !irq_held_app, Hh. reflexivity.
Qed.

Lemma serve_all_in_step rs dw :
  in_step dw →
  in_step (serve_all NAME DP_ISR DP_IMR DP_TSR state_code rs dw).
Proof.
  revert dw. induction rs as [|r rs IH]; intros dw Hdw; [exact Hdw|].
  unfold serve_all. simpl. apply IH.
  destruct r as [rc1 rc2|]; simpl.
  - now apply start_in_step.
  - now apply stop_in_step.
Qed.

(** X15.  Through any sequence of start and stop requests, whatever
    [register_irq] and [ne2k_up] return, a device that begins stopped
    and without a registration is afterwards stopped or active, and the
    interrupt is registered exactly when it is active; the driver never
    registers the interrupt while it is registered nor unregisters it
    while it is not. *)
Theorem ne2k_irq_follows_state (rs : list request) (d : netif_device_t) (w : driver) :
  state d = NETIF_STOPPED →
  irq_held false (trace w) = Some false →
  (state (serve_all NAME DP_ISR DP_IMR DP_TSR state_code rs (d, w)).1 = NETIF_STOPPED ∨
   state (serve_all NAME DP_ISR DP_IMR DP_TSR state_code rs (d, w)).1 = NETIF_ACTIVE) ∧
  irq_held false (trace (serve_all NAME DP_ISR DP_IMR DP_TSR state_code rs (d, w)).2)
    = Some (bool_decide
              (state (serve_all NAME DP_ISR DP_IMR DP_TSR state_code rs (d, w)).1
               = NETIF_ACTIVE)).
Proof.
  intros Hs Hh.
  assert (Hin : in_step (d, w)) by (left; auto).
  apply (serve_all_in_step rs) in Hin.
  destruct Hin as [[Hs' Hh']|[Hs' Hh']]; rewrite Hs', Hh'.
  - split; [now left|]. reflexivity.
  - split; [now right|]. reflexivity.
Qed.

(** X16.  A start that fails returns the code of the call that failed
    and leaves the device as it was; after a failed [register_irq],
    [ne2k_up] is not called; after a failed [ne2k_up] the registration is
    taken back, so none is left behind. *)
Theorem ne2k_start_failure (rc1 rc2 : Z) (d : netif_device_t) (w : driver) :
  state d ≠ NETIF_ACTIVE →
  rc1 ≠ EOK ∨ rc2 ≠ EOK →
  irq_held false (trace w) = Some false →
  let r := netif_start_message NAME DP_ISR DP_IMR DP_TSR state_code rc1 rc2 (d, w) in
  r.1 = (if decide (rc1 ≠ EOK) then rc1 else rc2) ∧
  r.1 ≠ EOK ∧
  r.2.1 = d ∧
  irq_held false (trace r.2.2) = Some false ∧
  (rc1 ≠ EOK → ∀ rc, Ne2k_up rc ∉ drop (length (trace w)) (trace r.2.2)).
Proof.
  intros Hs Hrc Hh r. subst r.
  destruct (rc_cases rc1 rc2) as [Hrc1|[[-> Hrc2]|[-> ->]]].
  - rewrite start_register_fails by assumption. simpl.
    destruct (decide (rc1 ≠ EOK)); [|contradiction].
    split; [reflexivity|]. split; [assumption|]. split; [reflexivity|]. split.
    + rewrite irq_held_app, Hh. simpl.
      destruct (decide (rc1 = EOK)); [contradiction|reflexivity].
    + intros _ rc. rewrite drop_app_length. intros Hin.
      apply list_elem_of_singleton in Hin. discriminate Hin.
  - rewrite start_up_fails by assumption. simpl.
    destruct (decide (EOK ≠ EOK)); [contradiction|].
    split; [reflexivity|]. split; [assumption|]. split; [reflexivity|]. split.
    + rewrite !irq_held_app, Hh. reflexivity.
    + contradiction.
  - destruct Hrc; contradiction.
Qed.

(** X17.  A start that goes through makes the device active and returns
    the number of the active state; a further start then does nothing at
    all, whatever the calls would have returned; and a stop after that
    returns the number of the stopped state and gives back the device
    as it was before the start. *)
Theorem ne2k_start_stop (rc1 rc2 : Z) (d : netif_device_t) (w : driver) :
  state d = NETIF_STOPPED →
  let s1 := netif_start_message NAME DP_ISR DP_IMR DP_TSR state_code EOK EOK (d, w) in
  let s2 := netif_start_message NAME DP_ISR DP_IMR DP_TSR state_code rc1 rc2 s1.2 in
  let s3 := netif_stop_message NAME state_code s2.2 in
  s1.1 = state_code NETIF_ACTIVE ∧ state s1.2.1 = NETIF_ACTIVE ∧
  s2 = (state_code NETIF_ACTIVE, s1.2) ∧
  s3.1 = state_code NETIF_STOPPED ∧ s3.2.1 = d.
Proof.
  intros Hs s1 s2 s3. subst s1 s2 s3.
  rewrite start_succeeds by (rewrite Hs; discriminate). cbn [fst snd].
  rewrite start_active by reflexivity. cbn [fst snd].
  rewrite stop_stops by discriminate. cbn [fst snd].
  repeat split. destruct d. simpl in Hs. now subst.
Qed.

Lemma patch_ne2k_cmds (ne2k : ne2k_t) (i1 i2 i3 mask : Z) :
  patch_cmds DP_ISR DP_IMR DP_TSR ne2k (Irq.ne2k_cmds i1 i2 i3 mask)
  = Irq.ne2k_cmds (port ne2k + DP_ISR) (port ne2k + DP_IMR) (port ne2k + DP_TSR) mask.
Proof. reflexivity. Qed.

(** X18.  The program a start hands to [register_irq] is the NE2000
    sequence on the registers of the card being started: it reads and
    acknowledges the status register at [port + DP_ISR], masks at
    [port + DP_IMR] and reads [port + DP_TSR], whatever addresses an
    earlier start left in the array. *)
Theorem ne2k_registered_program (rc1 rc2 : Z) (d : netif_device_t) (w : driver)
    (i1 i2 i3 mask : Z) :
  state d ≠ NETIF_ACTIVE →
  ne2k_cmds w = Irq.ne2k_cmds i1 i2 i3 mask →
  let w' := (netif_start_message NAME DP_ISR DP_IMR DP_TSR state_code rc1 rc2 (d, w)).2.2 in
  let p := port (specific d) in
  (∃ later,
     trace w' = trace w ++
       Register_irq (irq (specific d)) (device_id d) (device_id d)
         (ne2k_code (p + DP_ISR) (p + DP_IMR) (p + DP_TSR) mask) rc1 :: later) ∧
  ne2k_cmds w' = Irq.ne2k_cmds (p + DP_ISR) (p + DP_IMR) (p + DP_TSR) mask.
Proof.
  intros Hs Hcmds w' p. subst w' p.
  destruct (rc_cases rc1 rc2) as [Hrc1|[[-> Hrc2]|[-> ->]]].
  - rewrite start_register_fails by assumption.
    unfold registering. rewrite Hcmds, patch_ne2k_cmds. simpl.
    split; [|reflexivity]. exists []. reflexivity.
  - rewrite start_up_fails by assumption.
    unfold registering. rewrite Hcmds, patch_ne2k_cmds. simpl.
    split; [|reflexivity]. eexists. rewrite <- !app_assoc. reflexivity.
  - rewrite start_succeeds by assumption.
    unfold started, registering. rewrite Hcmds, patch_ne2k_cmds. simpl.
    destruct (irc_service w); simpl; (split; [|reflexivity]);
      eexists; rewrite <- !app_assoc; reflexivity.
Qed.

End Driver.

(** *** Probing *)

Lemma print_mac_blocks (i : nat) (mac : list Z) :
  allocated (print_mac i mac) = [] ∧ freed (print_mac i mac) = [].
Proof.
  revert i. induction mac as [|m mac IH]; intros i; [split; reflexivity|].
  destruct (IH (S i)) as [Ha Hf]. split; simpl; assumption.
Qed.

Lemma allocated_app (tr tr' : list probe_event) :
  allocated (tr ++ tr') = allocated tr ++ allocated tr'.
Proof. apply omap_app. Qed.

Lemma freed_app (tr tr' : list probe_event) :
  freed (tr ++ tr') = freed tr ++ freed tr'.
Proof. apply omap_app. Qed.

Lemma printf_blocks (fmt : string) (args : list printf_arg) (tr : list probe_event) :
  allocated (Printf_call fmt args :: tr) = allocated tr ∧
  freed (Printf_call fmt args :: tr) = freed tr.
Proof. split; reflexivity. Qed.

Lemma allocated_called (es : list probe_event) (m : memory) :
  allocated (calls (called es m)) = allocated (calls m) ++ allocated es.
Proof. apply allocated_app. Qed.

Lemma freed_called (es : list probe_event) (m : memory) :
  freed (calls (called es m)) = freed (calls m) ++ freed es.
Proof. apply freed_app. Qed.

(** The heap after two blocks have been allocated, written and freed
    again. *)
Lemma heap_restored (h : gmap Z block) (device ne2k : Z) (h' : gmap Z block) :
  h !! device = None → h !! ne2k = None →
  (∀ b, b ≠ device → b ≠ ne2k → h' !! b = h !! b) →
  delete device (delete ne2k h') = h.
Proof.
  intros Hd Hn Hrest. apply map_eq. intros b.
  destruct (decide (b = device)) as [->|Hbd]; [now rewrite lookup_delete_eq|].
  rewrite lookup_delete_ne by congruence.
  destruct (decide (b = ne2k)) as [->|Hbn]; [now rewrite lookup_delete_eq|].
  rewrite lookup_delete_ne by congruence. now apply Hrest.
Qed.

(** X19.  [netif_probe_message] keeps what it allocates exactly when it
    succeeds.  It returns [EOK] exactly when both allocations and the
    three calls went through; no block has been freed then, the device
    was handed to [netif_device_map_add] under the identifier given, and
    the heap has the two new blocks on top of what it had: the device,
    stopped, with that identifier, no phone and the [ne2k_t] as its
    specific part, and the [ne2k_t] as [ne2k_probe] left it.  When it
    returns anything else, every block it allocated has been freed again,
    and the heap is the one before the call. *)
Theorem ne2k_probe_blocks (NAME : string) (ENOMEM NE2K_IO_SIZE : Z) (ETH_ADDR : nat)
    (ans : probe_answers) (h0 : gmap Z block) (id inr io : Z) :
  ENOMEM ≠ EOK →
  let r := netif_probe_message NAME ENOMEM NE2K_IO_SIZE ETH_ADDR ans h0 id inr io in
  (r.1 = EOK ↔
     is_Some (malloc_device ans) ∧ is_Some (malloc_ne2k ans) ∧
     pio_enable_rc ans = EOK ∧ ne2k_probe_rc ans = EOK ∧
     device_map_add_rc ans = EOK) ∧
  (r.1 = EOK →
     freed (calls r.2) = [] ∧
     ∃ device ne2k,
       allocated (calls r.2) = [device; ne2k] ∧
       Device_map_add id device EOK ∈ calls r.2 ∧
       heap r.2 = <[ne2k := Ne2k_block (ne2k_probed ans) (ne2k_probe_mac ans)]>
                    (<[device := Device_block id (-1) ne2k NETIF_STOPPED]> h0)) ∧
  (r.1 ≠ EOK →
     freed (calls r.2) ≡ₚ allocated (calls r.2) ∧
     (unused h0 (malloc_device ans) → unused h0 (malloc_ne2k ans) →
      heap r.2 = h0)).
Proof.
  intros Hnomem r. subst r. unfold netif_probe_message.
  destruct (malloc_device ans) as [device|].
  2:{ simpl. split; [|split].
      - split; [contradiction|]. intros ([? [=]] & _).
      - contradiction.
      - intros _. split; reflexivity. }
  destruct (malloc_ne2k ans) as [ne2k|].
  2:{ simpl. split; [|split].
      - split; [contradiction|]. intros (_ & [? [=]] & _).
      - contradiction.
      - intros _. split; [reflexivity|]. intros Hd _.
        now apply delete_insert_id. }
  assert (Hfail : ∀ h',
            (∀ b, b ≠ device → b ≠ ne2k → h' !! b = h0 !! b) →
            unused h0 (Some device) → unused h0 (Some ne2k) →
            delete device (delete ne2k h') = h0).
  { intros h' Hrest Hd Hn. now apply heap_restored. }
  destruct (decide (pio_enable_rc ans ≠ EOK)) as [Hpio|Hpio].
  { cbn [fst snd]. split; [|split].
    - split; [contradiction|]. intros (_ & _ & Heq & _). contradiction.
    - contradiction.
    - intros _. split; [apply Permutation_swap|]. simpl.
      apply Hfail. intros b Hbd Hbn. now rewrite !lookup_insert_ne by congruence. }
  destruct (decide (ne2k_probe_rc ans ≠ EOK)) as [Hprobe|Hprobe].
  { cbn [fst snd]. split; [|split].
    - split; [contradiction|]. intros (_ & _ & _ & Heq & _). contradiction.
    - contradiction.
    - intros _. split; [apply Permutation_swap|]. simpl.
      apply Hfail. intros b Hbd Hbn. now rewrite !lookup_insert_ne by congruence. }
  destruct (decide (device_map_add_rc ans ≠ EOK)) as [Hadd|Hadd].
  { cbn [fst snd]. split; [|split].
    - split; [contradiction|]. intros (_ & _ & _ & _ & Heq). contradiction.
    - contradiction.
    - intros _. split; [apply Permutation_swap|]. simpl.
      apply Hfail. intros b Hbd Hbn. now rewrite !lookup_insert_ne by congruence. }
  assert (Hok : device_map_add_rc ans = EOK)
    by (destruct (decide (device_map_add_rc ans = EOK)); [assumption|contradiction]).
  cbn [fst snd]. split; [|split].
  - split; [intros _|reflexivity].
    repeat split; eauto;
      match goal with
      | |- ?x = EOK => destruct (decide (x = EOK)); [assumption|contradiction]
      end.
  - intros _.
    match goal with
    | |- context [print_mac 0 ?mac] =>
        destruct (print_mac_blocks 0 mac) as [Ha Hf]
    end.
    split.
    + rewrite freed_called, Hf. reflexivity.
    + exists device, ne2k. split; [|split].
      * rewrite allocated_called, Ha. reflexivity.
      * rewrite <- Hok. simpl. do 6 apply list_elem_of_further.
        apply list_elem_of_here.
      * simpl. apply map_eq. intros b.
        destruct (decide (b = ne2k)) as [->|Hbn];
          [now rewrite !lookup_insert_eq|].
        rewrite !(lookup_insert_ne _ ne2k) by congruence.
        destruct (decide (b = device)) as [->|Hbd];
          [now rewrite !lookup_insert_eq|].
        now rewrite !lookup_insert_ne by congruence.
  - contradiction.
Qed.

(** *** Worked runs *)

Lemma ne2k_probe_blocks_witness :
  let ans := {| malloc_device := Some 4096; malloc_ne2k := Some 8192;
                pio_enable_rc := 0; pio_enable_port := 0x300;
                ne2k_probe_rc := 0;
                ne2k_probed := {| port := 0x300; irq := 9 |};
                ne2k_probe_mac := [0; 1; 2; 3; 4; 5];
                device_map_add_rc := -2 |} in
  let h0 : gmap Z block := {[ 64 := Zeroed ]} in
  let r := netif_probe_message "ne2000" (-1) 32 6 ans h0 1 9 0x300 in
  -1 ≠ EOK ∧ r.1 ≠ EOK ∧
  unused h0 (malloc_device ans) ∧ unused h0 (malloc_ne2k ans) ∧
  freed (calls r.2) ≡ₚ allocated (calls r.2) ∧ heap r.2 = h0.
Proof.
  intros ans h0 r.
  assert (Hnomem : -1 ≠ EOK) by discriminate.
  assert (Hrc : r.1 ≠ EOK) by discriminate.
  assert (Hd : unused h0 (malloc_device ans)) by reflexivity.
  assert (Hn : unused h0 (malloc_ne2k ans)) by reflexivity.
  split; [exact Hnomem|]. split; [exact Hrc|].
  split; [exact Hd|]. split; [exact Hn|].
  destruct (proj2 (proj2 (ne2k_probe_blocks "ne2000" (-1) 32 6 ans h0 1 9 0x300 Hnomem)) Hrc)
    as [Hfreed Hheap].
  split; [exact Hfreed|exact (Hheap Hd Hn)].
Defined.

Lemma ne2k_irq_follows_state_witness :
  let dw := serve_all "ne2000" 7 15 4 demo_state_code
              [Start (-12) 0; Start 0 (-5); Start 0 0; Start 0 0; Stop; Stop; Start 0 0]
              (demo_device, demo_driver) in
  state demo_device = NETIF_STOPPED ∧
  irq_held false (trace demo_driver) = Some false ∧
  (state dw.1 = NETIF_STOPPED ∨ state dw.1 = NETIF_ACTIVE) ∧
  irq_held false (trace dw.2) = Some (bool_decide (state dw.1 = NETIF_ACTIVE)).
Proof.
  intros dw. split; [reflexivity|]. split; [reflexivity|].
  exact (ne2k_irq_follows_state "ne2000" 7 15 4 demo_state_code _
           demo_device demo_driver eq_refl eq_refl).
Defined.

Lemma ne2k_start_failure_witness :
  state demo_device ≠ NETIF_ACTIVE ∧
  irq_held false (trace demo_driver) = Some false ∧
  let r := netif_start_message "ne2000" 7 15 4 demo_state_code 0 (-5)
             (demo_device, demo_driver) in
  r.1 = (if decide (0 ≠ EOK) then 0 else -5) ∧
  r.1 ≠ EOK ∧
  r.2.1 = demo_device ∧
  irq_held false (trace r.2.2) = Some false ∧
  (0 ≠ EOK → ∀ rc, Ne2k_up rc ∉ drop (length (trace demo_driver)) (trace r.2.2)).
Proof.
  assert (Hs : state demo_device ≠ NETIF_ACTIVE) by discriminate.
  assert (Hrc : 0 ≠ EOK ∨ -5 ≠ EOK) by (right; discriminate).
  assert (Hh : irq_held false (trace demo_driver) = Some false) by reflexivity.
  split; [exact Hs|]. split; [exact Hh|].
  exact (ne2k_start_failure "ne2000" 7 15 4 demo_state_code 0 (-5)
           demo_device demo_driver Hs Hrc Hh).
Defined.

Lemma ne2k_start_stop_witness :
  let s1 := netif_start_message "ne2000" 7 15 4 demo_state_code EOK EOK
              (demo_device, demo_driver) in
  let s2 := netif_start_message "ne2000" 7 15 4 demo_state_code (-12) (-5) s1.2 in
  let s3 := netif_stop_message "ne2000" demo_state_code s2.2 in
  s1.1 = 2 ∧ state s1.2.1 = NETIF_ACTIVE ∧ s2 = (2, s1.2) ∧
  s3.1 = 1 ∧ s3.2.1 = demo_device.
Proof.
  exact (ne2k_start_stop "ne2000" 7 15 4 demo_state_code (-12) (-5)
           demo_device demo_driver eq_refl).
Defined.

Lemma ne2k_registered_program_witness :
  let w' := (netif_start_message "ne2000" 7 15 4 demo_state_code 0 0
               (demo_device, demo_driver)).2.2 in
  (∃ later,
     trace w' = trace demo_driver ++
       Register_irq 9 1 1 (ne2k_code 0x307 0x30f 0x304 0x7f) 0 :: later) ∧
  ne2k_cmds w' = Irq.ne2k_cmds 0x307 0x30f 0x304 0x7f.
Proof.
  exact (ne2k_registered_program "ne2000" 7 15 4 demo_state_code 0 0
           demo_device demo_driver 0 0 0 0x7f ltac:(discriminate) eq_refl).
Defined.

(** The calls of a start followed by a stop. *)
Lemma ne2k_trace_example :
  trace (serve_all "ne2000" 7 15 4 demo_state_code [Start 0 0; Stop]
           (demo_device, demo_driver)).2
  = [Register_irq 9 1 1 (ne2k_code 0x307 0x30f 0x304 0x7f) 0;
     Ne2k_up 0;
     Printf ("ne2000: State changed to active" ++ newline);
     Irc_enable_interrupt 5 9;
     Ne2k_down;
     Unregister_irq 9 1;
     Printf ("ne2000: State changed to stopped" ++ newline)].
Proof. reflexivity. Qed.

End Ne2000Facts.

(** ** The system console *)

Module SysioFacts.
Import Sysio.

(** *** Numbers *)

Lemma to_unsigned_small (z : Z) : 0 <= z < 2 ^ 32 → to_unsigned z = z.
Proof. intros Hz. unfold to_unsigned. now apply wrap_small. Qed.

Lemma to_int_small (z : Z) : 0 <= z < 2 ^ 31 → to_int z = z.
Proof.
  intros Hz. unfold to_int.
  rewrite wrap_small by (change (2 ^ 32) with 4294967296;
                         change (2 ^ 31) with 2147483648 in Hz; lia).
  destruct (Z.ltb_spec z (2 ^ 31)); [reflexivity|lia].
Qed.

Lemma fmt_d_short (n : Z) : 1 <= n <= 201 → short_numeral (fmt_d n) = true.
Proof.
  intros Hn.
  assert (Hall : forallb (λ k, short_numeral (fmt_d (Z.of_nat k))) (seq 1 201) = true)
    by (vm_compute; reflexivity).
  rewrite forallb_forall in Hall.
  rewrite <- (Z2Nat.id n) by lia. apply Hall.
  apply in_seq. lia.
Qed.

Lemma c_string_terminated (s rest : list byte) :
  forallb (λ c, negb (Byte.eqb c Byte.x00)) s = true →
  c_string (s ++ Byte.x00 :: rest) = s.
Proof.
  induction s as [|c s IH]; intros Hs; [reflexivity|].
  simpl in Hs. apply andb_true_iff in Hs as [Hc Hs].
  simpl. destruct (Byte.eqb c Byte.x00); [discriminate Hc|].
  now rewrite IH.
Qed.

Lemma curs_goto_within (row col : Z) :
  0 <= row <= 200 → 0 <= col <= 200 →
  curs_goto row col = [Sys_io (cursor_sequence row col)] ∧
  (6 <= length (cursor_sequence row col) <= 10)%nat.
Proof.
  intros Hrow Hcol.
  pose proof (fmt_d_short (row + 1) ltac:(lia)) as Hr.
  pose proof (fmt_d_short (col + 1) ltac:(lia)) as Hc.
  unfold short_numeral in Hr, Hc.
  apply andb_true_iff in Hr as [Hr Hrz]. apply andb_true_iff in Hr as [Hr1 Hr3].
  apply andb_true_iff in Hc as [Hc Hcz]. apply andb_true_iff in Hc as [Hc1 Hc3].
  apply Nat.leb_le in Hr1, Hr3, Hc1, Hc3.
  assert (Hlen : (6 <= length (cursor_sequence row col) <= 10)%nat).
  { unfold cursor_sequence. rewrite !length_app. simpl. lia. }
  split; [|exact Hlen].
  unfold curs_goto.
  destruct (Z.ltb_spec 200 row); [lia|]. destruct (Z.ltb_spec 200 col); [lia|].
  simpl. unfold sysputs, control_string. do 2 f_equal.
  rewrite !to_unsigned_small by (change (2 ^ 32) with 4294967296; lia).
  rewrite !to_int_small by (change (2 ^ 31) with 2147483648; lia).
  fold (cursor_sequence row col).
  rewrite take_ge by lia.
  apply c_string_terminated.
  unfold cursor_sequence. rewrite !forallb_app, Hrz, Hcz. reflexivity.
Qed.

(** X20.  [curs_goto] sends nothing when the row or the column is above
    200; for a position within bounds it sends, in one piece, the escape
    character, [[], the row plus one, [;], the column plus one and [f],
    six to ten characters, so the twenty characters of [control] never cut
    the sequence short. *)
Theorem curs_goto_output (row col : Z) :
  0 <= row < 2 ^ 32 → 0 <= col < 2 ^ 32 →
  (200 < row ∨ 200 < col → curs_goto row col = []) ∧
  (row <= 200 → col <= 200 →
   curs_goto row col
     = [Sys_io ([Byte.x1b; Byte.x5b] ++ fmt_d (row + 1) ++ [Byte.x3b]
                ++ fmt_d (col + 1) ++ [Byte.x66])] ∧
   (6 <= length (console (curs_goto row col)) <= 10)%nat).
Proof.
  intros Hrow Hcol. split.
  - intros Hout. unfold curs_goto.
    destruct (Z.ltb_spec 200 row); [reflexivity|].
    destruct (Z.ltb_spec 200 col); [reflexivity|]. lia.
  - intros Hr Hc.
    destruct (curs_goto_within row col ltac:(lia) ltac:(lia)) as [Heq Hlen].
    split; [exact Heq|]. rewrite Heq. unfold console. simpl.
    rewrite app_nil_r. exact Hlen.
Qed.

(** *** Answers *)

Lemma answered_app (tr tr' : list event) :
  answered (tr ++ tr') = answered tr ++ answered tr'.
Proof. apply omap_app. Qed.

Lemma console_app (tr tr' : list event) :
  console (tr ++ tr') = console tr ++ console tr'.
Proof. unfold console. now rewrite omap_app, concat_app. Qed.

Lemma curs_goto_answers (row col : Z) : answered (curs_goto row col) = [].
Proof. unfold curs_goto. now destruct (_ || _). Qed.

Section Connection.

Variables ELIMIT ENOENT : Z.

Lemma iteration_answers (c : ipc_call_t) (s : connection) :
  answered (iteration ENOENT c s).1.1 = [callid c] ∧
  ((iteration ENOENT c s).2 = true ↔ imethod c = IPC_M_PHONE_HUNGUP).
Proof.
  unfold iteration.
  destruct (imethod c); simpl;
    rewrite ?answered_app, ?curs_goto_answers;
    try (destruct (decide _); rewrite ?curs_goto_answers);
    (split; [reflexivity|]); split; congruence.
Qed.

Lemma serve_calls_answers (calls : list ipc_call_t) (s : connection) :
  answered (serve_calls ENOENT calls s).1.1 = callid <$> until_hangup calls ∧
  ((serve_calls ENOENT calls s).2 = true
   ↔ Exists (λ c, imethod c = IPC_M_PHONE_HUNGUP) calls).
Proof.
  revert s. induction calls as [|c rest IH]; intros s.
  - simpl. split; [reflexivity|]. split; [discriminate|]. intros Hex. inversion Hex.
  - cbn [serve_calls until_hangup].
    destruct (iteration_answers c s) as [Hans Hret].
    destruct (iteration ENOENT c s) as [[tr s'] returned]. simpl in Hans, Hret.
    destruct returned.
    + assert (Hm : imethod c = IPC_M_PHONE_HUNGUP) by now apply Hret.
      rewrite Hm. simpl. split; [now rewrite Hans|].
      split; [intros _; now left|reflexivity].
    + assert (Hm : imethod c ≠ IPC_M_PHONE_HUNGUP)
        by (intros Hm; apply Hret in Hm; discriminate).
      destruct (IH s') as [Hans' Hret'].
      destruct (serve_calls ENOENT rest s') as [[tr' s''] r]. simpl in *.
      split.
      * rewrite answered_app, Hans, Hans'. now destruct (imethod c).
      * rewrite Exists_cons, Hret'. tauto.
Qed.

(** X21.  Every call gets one answer, in the order of arrival: a
    connection that is accepted answers the connection itself and then
    each call up to the first hang-up, that one included, once, and none
    after it; the function returns, with [client_connected] cleared,
    exactly when a hang-up arrived.  A connection that comes while a client
    is connected gets the one answer [ELIMIT], sends nothing to the
    console and leaves [client_connected] set. *)
Theorem sysio_answers (iid : Z) (calls : list ipc_call_t) :
  answered (sysio_client_connection ELIMIT ENOENT iid calls false).1
    = iid :: (callid <$> until_hangup calls) ∧
  ((sysio_client_connection ELIMIT ENOENT iid calls false).2 = false
   ↔ Exists (λ c, imethod c = IPC_M_PHONE_HUNGUP) calls) ∧
  sysio_client_connection ELIMIT ENOENT iid calls true
    = ([Answer iid (Some ELIMIT) 0 0], true).
Proof.
  unfold sysio_client_connection.
  destruct (serve_calls_answers calls {| lastcol := 0; lastrow := 0; retval := None |})
    as [Hans Hret].
  destruct (serve_calls ENOENT calls _) as [[tr s'] returned]. simpl in *.
  split; [now rewrite Hans|]. split; [|reflexivity].
  rewrite <- Hret. destruct returned; simpl; split; congruence.
Qed.

(** *** Lines *)

Lemma put_line_serve (chars : list Z) (id row col : Z) (s : connection) :
  0 <= row <= 200 → 0 <= col → col + Z.of_nat (length chars) <= 201 →
  lastcol s = col → lastrow s = row →
  console (serve_calls ENOENT (put_line id row col chars) s).1.1
    = to_char <$> chars ∧
  lastrow (serve_calls ENOENT (put_line id row col chars) s).1.2 = row ∧
  lastcol (serve_calls ENOENT (put_line id row col chars) s).1.2
    = col + Z.of_nat (length chars) ∧
  (serve_calls ENOENT (put_line id row col chars) s).2 = false.
Proof.
  revert id col s. induction chars as [|ch chars IH]; intros id col s Hrow Hcol Hend Hlc Hlr.
  - simpl. repeat split; [assumption|lia].
  - cbn [put_line serve_calls length] in *. unfold iteration. cbn [imethod arg1 arg2 arg3 callid].
    rewrite (to_int_small row), (to_int_small col)
      by (change (2 ^ 31) with 2147483648; lia).
    rewrite (to_int_small (col + 1)) by (change (2 ^ 31) with 2147483648; lia).
    destruct (decide (lastcol s ≠ col ∨ lastrow s ≠ row)) as [[Hne|Hne]|_];
      [contradiction ..|].
    specialize (IH (id + 1) (col + 1)
                  {| lastcol := col + 1; lastrow := row; retval := Some 0 |}
                  Hrow ltac:(lia) ltac:(lia) eq_refl eq_refl).
    destruct IH as (Hout & Hr & Hc & Hret).
    destruct (serve_calls ENOENT (put_line (id + 1) row (col + 1) chars) _)
      as [[tr' s''] r]. cbn [fst snd] in *.
    split; [|split; [|split]].
    + rewrite console_app, Hout. reflexivity.
    + exact Hr.
    + rewrite Hc. lia.
    + exact Hret.
Qed.

(** X22.  A line written left to right costs one cursor sequence at
    most: for [FB_PUTCHAR] calls that put characters into consecutive
    columns of one row, within bounds, the console gets the cursor
    sequence for the first position (none at all when the cursor is known
    to be there already) and then just the characters; afterwards the
    remembered position is the column behind the last character. *)
Theorem sysio_put_line (chars : list Z) (id row col : Z) (s : connection) :
  chars ≠ [] →
  0 <= row <= 200 → 0 <= col → col + Z.of_nat (length chars) <= 201 →
  let r := serve_calls ENOENT (put_line id row col chars) s in
  console r.1.1
    = (if decide (lastcol s ≠ col ∨ lastrow s ≠ row)
       then cursor_sequence row col else [])
      ++ (to_char <$> chars) ∧
  lastrow r.1.2 = row ∧
  lastcol r.1.2 = col + Z.of_nat (length chars) ∧
  r.2 = false.
Proof.
  intros Hne Hrow Hcol Hend r. subst r.
  destruct chars as [|ch chars]; [contradiction|].
  cbn [put_line serve_calls length] in *. unfold iteration. cbn [imethod arg1 arg2 arg3 callid].
  rewrite (to_int_small row), (to_int_small col)
    by (change (2 ^ 31) with 2147483648; lia).
  rewrite (to_int_small (col + 1)) by (change (2 ^ 31) with 2147483648; lia).
  rewrite !to_unsigned_small by (change (2 ^ 32) with 4294967296; lia).
  destruct (put_line_serve chars (id + 1) row (col + 1)
              {| lastcol := col + 1; lastrow := row; retval := Some 0 |}
              Hrow ltac:(lia) ltac:(lia) eq_refl eq_refl) as (Hout & Hr & Hc & Hret).
  destruct (serve_calls ENOENT (put_line (id + 1) row (col + 1) chars) _)
    as [[tr' s''] r]. cbn [fst snd] in *.
  split; [|repeat split; [exact Hr|rewrite Hc; lia|exact Hret]].
  rewrite !console_app, Hout.
  destruct (decide (lastcol s ≠ col ∨ lastrow s ≠ row)) as [Hmove|Hstay].
  - assert (Hcol' : 0 <= col <= 200) by lia.
    destruct (curs_goto_within row col Hrow Hcol') as [-> _].
    unfold console. simpl. now rewrite app_nil_r, <- !app_assoc.
  - reflexivity.
Qed.

End Connection.

(** *** Worked runs *)

Lemma curs_goto_output_witness :
  0 <= 24 < 2 ^ 32 ∧ 0 <= 79 < 2 ^ 32 ∧
  curs_goto 24 79
    = [Sys_io ([Byte.x1b; Byte.x5b] ++ fmt_d (24 + 1) ++ [Byte.x3b]
               ++ fmt_d (79 + 1) ++ [Byte.x66])] ∧
  (6 <= length (console (curs_goto 24 79)) <= 10)%nat.
Proof.
  assert (Hrow : 0 <= 24 < 2 ^ 32) by (simpl; lia).
  assert (Hcol : 0 <= 79 < 2 ^ 32) by (simpl; lia).
  split; [exact Hrow|]. split; [exact Hcol|].
  exact (proj2 (curs_goto_output 24 79 Hrow Hcol) ltac:(lia) ltac:(lia)).
Defined.

Lemma curs_goto_example :
  string_of_list_byte (console (curs_goto 24 79))
  = String (Ascii.ascii_of_nat 27) "[25;80f".
Proof. vm_compute. reflexivity. Qed.

Lemma sysio_answers_witness :
  let calls := put_line 1 3 4 [104; 105]
               ++ [{| callid := 50; imethod := FB_CURSOR_GOTO;
                      arg1 := 1; arg2 := 1; arg3 := 0 |};
                   {| callid := 51; imethod := IPC_M_PHONE_HUNGUP;
                      arg1 := 0; arg2 := 0; arg3 := 0 |};
                   {| callid := 52; imethod := FB_CLEAR;
                      arg1 := 0; arg2 := 0; arg3 := 0 |}] in
  answered (sysio_client_connection (-7) (-8) 9 calls false).1 = [9; 1; 2; 50; 51] ∧
  (sysio_client_connection (-7) (-8) 9 calls false).2 = false.
Proof.
  intros calls.
  destruct (sysio_answers (-7) (-8) 9 calls) as (Hans & Hret & _).
  split; [exact Hans|]. apply Hret. unfold calls. simpl.
  do 3 apply Exists_cons_tl. now apply Exists_cons_hd.
Defined.

Lemma sysio_put_line_witness :
  let s := {| lastcol := 0; lastrow := 0; retval := None |} in
  let r := serve_calls (-8) (put_line 1 3 4 [104; 105]) s in
  console r.1.1
    = (if decide (lastcol s ≠ 4 ∨ lastrow s ≠ 3)
       then cursor_sequence 3 4 else [])
      ++ (to_char <$> [104; 105]) ∧
  lastrow r.1.2 = 3 ∧
  lastcol r.1.2 = 4 + Z.of_nat (length [104; 105]) ∧
  r.2 = false.
Proof.
  intros s.
  exact (sysio_put_line (-8) [104; 105] 1 3 4 s
           ltac:(discriminate) ltac:(lia) ltac:(lia) ltac:(simpl; lia)).
Defined.

End SysioFacts.
